(** * lucidstate: signals, effect stack, batched scheduler and contexts

    A shallow embedding of [src/src/index.ts].  The whole runtime is one
    [world] record threaded through every operation: the state objects
    created by [state()], the AbortSignals, the module-level effect stack
    [effects], the cleanups attached to callback functions
    ([setCleanup]/[getCleanup]), the scheduler's [executions] map, the
    microtask queue, and a trace of observable events.

    Object identities (callback functions, state objects, AbortSignals) are
    natural numbers.  JavaScript values are [val]: numbers and function
    values; strict equality [===] is [strict_eqb].  User code (bodies of
    effects and subscribers, the cleanups they return, updater functions)
    is a parameter [program]. *)

From Stdlib Require Import List Bool Arith ZArith Lia.
Import ListNotations.

Definition cb := nat.   (* identity of a callback function [() => Cleanup] *)
Definition sig := nat.  (* identity of a [State] object *)
Definition tok := nat.  (* identity of an [AbortSignal] *)

(** JavaScript values stored in states: numbers and functions. *)
Inductive val : Type :=
| VNum (z : Z)
| VFn (f : nat).

(** [a === b] *)
Definition strict_eqb (a b : val) : bool :=
  match a, b with
  | VNum x, VNum y => Z.eqb x y
  | VFn f, VFn g => Nat.eqb f g
  | _, _ => false
  end.

(** [typeof value === "function"] *)
Definition is_function (v : val) : bool :=
  match v with VFn _ => true | VNum _ => false end.

(** User code run by callbacks: [s.get()], [s.set(a)],
    [if (c.get() === v) { i }] and [throw]. *)
Inductive instr : Type :=
| IGet (s : sig)
| ISet (s : sig) (a : val)
| IIf (c : sig) (v : val) (i : instr)
| IThrow.

(** The user program: what each callback does and returns, what each
    cleanup does, and what each function value computes when used as an
    updater. *)
Record program : Type := {
  code : cb -> list instr;
  result : cb -> option nat;
  cleanup_code : nat -> list instr;
  apply_fn : nat -> val -> val
}.

(** [type Effect = { fn; options?: { signal? } }] *)
Record effect_entry : Type := { e_fn : cb; e_opt : option tok }.

(** The listener [() => subscribers.delete(fn)] registered by [subscribe]. *)
Inductive listener : Type :=
| LUnsub (s : sig) (fn : cb).

(** An [AbortSignal]: its [aborted] flag and its abort listeners. *)
Record token : Type := { aborted : bool; listeners : list listener }.

(** A state object: [stateValue] and the [subscribers] Set (insertion
    ordered). *)
Record srec : Type := { value : val; subscribers : list cb }.

(** [{ snapshot, update }] *)
Record dep : Type := { snapshot : val; update : val }.

(** [Deps = Map<State, dep>]: ordered, never deleted from. *)
Definition deps := list (sig * dep).

(** [executions: Map<fn, Deps>] with JavaScript's Map semantics: entries in
    insertion order, a deleted entry leaves an empty slot ([None]) so that a
    live iterator keeps its position, [set] of a new key appends. *)
Definition emap := list (option (cb * deps)).

Inductive event : Type :=
| ERun (fn : cb)            (* a callback is invoked *)
| ECleanup (fn : cb)        (* the cleanup stored on [fn] is invoked *)
| EQueue (fn : cb) (s : sig)(* [scheduler.queue(fn, s, ...)] *)
| EArm                      (* [queueMicrotask(flush)] *)
| EAbort (t : tok)          (* an AbortSignal fires *)
| ECtxRun (t : tok)         (* a context body runs with signal [t] *)
| ECtxCleanup (c : nat).    (* a context cleanup runs *)

Record world : Type := {
  sigs : sig -> srec;
  toks : tok -> token;
  next_tok : nat;
  stack : list effect_entry;
  cleanups : cb -> option nat;
  executions : emap;
  mtasks : nat;
  trace : list event
}.

Definition set_sigs f w :=
  {| sigs := f; toks := toks w; next_tok := next_tok w; stack := stack w;
     cleanups := cleanups w; executions := executions w; mtasks := mtasks w;
     trace := trace w |}.
Definition set_toks f w :=
  {| sigs := sigs w; toks := f; next_tok := next_tok w; stack := stack w;
     cleanups := cleanups w; executions := executions w; mtasks := mtasks w;
     trace := trace w |}.
Definition set_next_tok n w :=
  {| sigs := sigs w; toks := toks w; next_tok := n; stack := stack w;
     cleanups := cleanups w; executions := executions w; mtasks := mtasks w;
     trace := trace w |}.
Definition set_stack st w :=
  {| sigs := sigs w; toks := toks w; next_tok := next_tok w; stack := st;
     cleanups := cleanups w; executions := executions w; mtasks := mtasks w;
     trace := trace w |}.
Definition set_cleanups f w :=
  {| sigs := sigs w; toks := toks w; next_tok := next_tok w; stack := stack w;
     cleanups := f; executions := executions w; mtasks := mtasks w;
     trace := trace w |}.
Definition set_executions m w :=
  {| sigs := sigs w; toks := toks w; next_tok := next_tok w; stack := stack w;
     cleanups := cleanups w; executions := m; mtasks := mtasks w;
     trace := trace w |}.
Definition set_mtasks n w :=
  {| sigs := sigs w; toks := toks w; next_tok := next_tok w; stack := stack w;
     cleanups := cleanups w; executions := executions w; mtasks := n;
     trace := trace w |}.
Definition emit (e : event) w :=
  {| sigs := sigs w; toks := toks w; next_tok := next_tok w; stack := stack w;
     cleanups := cleanups w; executions := executions w; mtasks := mtasks w;
     trace := trace w ++ [e] |}.

Definition upd {A} (f : nat -> A) (k : nat) (x : A) : nat -> A :=
  fun k' => if Nat.eqb k' k then x else f k'.

Definition sig_of (s : sig) w := sigs w s.
Definition value_of (s : sig) w := value (sigs w s).
Definition subs_of (s : sig) w := subscribers (sigs w s).

(** [setCleanup(fn, v)] *)
Definition set_cleanup (fn : cb) (c : option nat) w :=
  set_cleanups (upd (cleanups w) fn c) w.

(** The world right after the module is loaded and [state(init s)] has
    been called for every state [s]. *)
Definition init_world (init : sig -> val) : world :=
  {| sigs := fun s => {| value := init s; subscribers := [] |};
     toks := fun _ => {| aborted := false; listeners := [] |};
     next_tok := 0; stack := []; cleanups := fun _ => None;
     executions := []; mtasks := 0; trace := [] |}.

(** ** The [executions] map *)

Fixpoint m_get (k : cb) (m : emap) : option deps :=
  match m with
  | [] => None
  | Some (k', d) :: r => if Nat.eqb k k' then Some d else m_get k r
  | None :: r => m_get k r
  end.

Definition m_delete (k : cb) (m : emap) : emap :=
  map (fun sl => match sl with
                 | Some (k', d) => if Nat.eqb k k' then None else sl
                 | None => None
                 end) m.

Fixpoint m_replace (k : cb) (d : deps) (m : emap) : emap :=
  match m with
  | [] => []
  | Some (k', d') :: r =>
      if Nat.eqb k k' then Some (k', d) :: r else Some (k', d') :: m_replace k d r
  | None :: r => None :: m_replace k d r
  end.

Definition m_set (k : cb) (d : deps) (m : emap) : emap :=
  match m_get k m with
  | Some _ => m_replace k d m
  | None => m ++ [Some (k, d)]
  end.

Definition m_size (m : emap) : nat :=
  length (filter (fun sl => match sl with Some _ => true | None => false end) m).

(** Keys of the live entries, in iteration order. *)
Fixpoint m_keys (m : emap) : list cb :=
  match m with
  | [] => []
  | Some (k, _) :: r => k :: m_keys r
  | None :: r => m_keys r
  end.

(** ** [Deps] maps *)

Fixpoint d_get (s : sig) (d : deps) : option dep :=
  match d with
  | [] => None
  | (s', x) :: r => if Nat.eqb s s' then Some x else d_get s r
  end.

Fixpoint d_set (s : sig) (x : dep) (d : deps) : deps :=
  match d with
  | [] => [(s, x)]
  | (s', y) :: r => if Nat.eqb s s' then (s', x) :: r else (s', y) :: d_set s x r
  end.

(** ** [createEffectScheduler().queue] *)

Definition arm w := emit EArm (set_mtasks (S (mtasks w)) w).

Definition queue (fn : cb) (s : sig) (snap upd_v : val) (w : world) : world :=
  let ds := match m_get fn (executions w) with Some d => d | None => [] end in
  let m1 := m_delete fn (executions w) in
  let ds' := match d_get s ds with
             | Some x => d_set s {| snapshot := snapshot x; update := upd_v |} ds
             | None => d_set s {| snapshot := snap; update := upd_v |} ds
             end in
  let m2 := m_set fn ds' m1 in
  let w1 := set_executions m2 (emit (EQueue fn s) w) in
  if Nat.ltb 1 (m_size m2) then w1 else arm w1.

(** ** AbortSignals *)

(** [controller.abort()]: a signal fires at most once; its listeners run in
    registration order. *)
Definition run_listener (l : listener) (w : world) : world :=
  match l with
  | LUnsub s fn =>
      let r := sigs w s in
      set_sigs (upd (sigs w) s {| value := value r;
        subscribers := filter (fun x => negb (Nat.eqb x fn)) (subscribers r) |}) w
  end.

Definition abort (t : tok) (w : world) : world :=
  let k := toks w t in
  if aborted k then w
  else fold_left (fun acc l => run_listener l acc) (listeners k)
         (emit (EAbort t)
            (set_toks (upd (toks w) t {| aborted := true; listeners := listeners k |}) w)).

(** [signal.addEventListener("abort", l)]; on a signal that has already
    fired the listener is recorded but never called. *)
Definition add_listener (t : tok) (l : listener) (w : world) : world :=
  let k := toks w t in
  set_toks (upd (toks w) t {| aborted := aborted k; listeners := listeners k ++ [l] |}) w.

(** [new AbortController()] *)
Definition new_controller (w : world) : tok * world :=
  let t := next_tok w in
  (t, set_next_tok (S t)
        (set_toks (upd (toks w) t {| aborted := false; listeners := [] |}) w)).

(** ** State objects ([state()]) *)

(** [subscribe(fn, options)] *)
Definition subscribe (s : sig) (fn : cb) (opt : option tok) (w : world) : world :=
  let r := sigs w s in
  let w1 := if existsb (Nat.eqb fn) (subscribers r) then w
            else set_sigs (upd (sigs w) s {| value := value r;
                                             subscribers := subscribers r ++ [fn] |}) w in
  match opt with
  | Some t => add_listener t (LUnsub s fn) w1
  | None => w1
  end.

(** The function returned by [subscribe]: [() => subscribers.delete(fn)] *)
Definition unsubscribe (s : sig) (fn : cb) (w : world) : world :=
  run_listener (LUnsub s fn) w.

Fixpoint last_opt {A} (l : list A) : option A :=
  match l with
  | [] => None
  | [x] => Some x
  | _ :: r => last_opt r
  end.

(** [effects.current()]: [stack[stack.length - 1]] *)
Definition current (w : world) : option effect_entry := last_opt (stack w).

(** [get()] *)
Definition get (s : sig) (w : world) : world * val :=
  let w1 := match current w with
            | Some e => subscribe s (e_fn e) (e_opt e) w
            | None => w
            end in
  (w1, value_of s w1).

Section Runtime.

Variable P : program.

(** [(value as (prev: T) => T)(stateValue)] *)
Definition call_updater (a old : val) : val :=
  match a with VFn f => apply_fn P f old | VNum _ => a end.

(** [set(value)] *)
Definition sset (s : sig) (a : val) (w : world) : world :=
  let old := value_of s w in
  let nv := if is_function a then call_updater a old else a in
  if strict_eqb old nv then w
  else
    let w1 := set_sigs (upd (sigs w) s {| value := nv; subscribers := subs_of s w |}) w in
    fold_left (fun acc fn => queue fn s old nv acc) (subs_of s w) w1.

Inductive outcome : Type := Normal | Thrown | OutOfFuel.

Fixpoint exec_instr (i : instr) (w : world) : world * outcome :=
  match i with
  | IGet s => (fst (get s w), Normal)
  | ISet s a => (sset s a w, Normal)
  | IIf c v j =>
      let (w1, x) := get c w in
      if strict_eqb x v then exec_instr j w1 else (w1, Normal)
  | IThrow => (w, Thrown)
  end.

Fixpoint exec_code (l : list instr) (w : world) : world * outcome :=
  match l with
  | [] => (w, Normal)
  | i :: r =>
      let (w1, o) := exec_instr i w in
      match o with
      | Normal => exec_code r w1
      | _ => (w1, o)
      end
  end.

(** [fn()] *)
Definition call_fn (fn : cb) (w : world) : world * outcome :=
  exec_code (code P fn) (emit (ERun fn) w).

(** [getCleanup(fn)?.()] *)
Definition run_cleanup (fn : cb) (w : world) : world * outcome :=
  match cleanups w fn with
  | Some c => exec_code (cleanup_code P c) (emit (ECleanup fn) w)
  | None => (w, Normal)
  end.

(** [createEffectStack().add]: push, [setCleanup(fn, fn())], pop.  When
    [fn()] throws, the two statements after it do not run. *)
Definition add (e : effect_entry) (w : world) : world * outcome :=
  let w1 := set_stack (stack w ++ [e]) w in
  let (w2, o) := call_fn (e_fn e) w1 in
  match o with
  | Normal =>
      (set_stack (removelast (stack w2)) (set_cleanup (e_fn e) (result P (e_fn e)) w2),
       Normal)
  | _ => (w2, o)
  end.

Definition dep_changed (x : sig * dep) : bool :=
  negb (strict_eqb (snapshot (snd x)) (update (snd x))).

(** The microtask armed by [queue]: a live iteration over [executions]
    (index [i] into the slot list, re-read at each step), then
    [executions.clear()].  An exception thrown by a cleanup or a callback
    leaves the loop before the clear.  [fuel] bounds the number of steps,
    since a callback that requeues itself can keep the iteration going. *)
Fixpoint flush_loop (fuel i : nat) (w : world) : world * outcome :=
  match fuel with
  | 0 => (w, OutOfFuel)
  | S fuel' =>
      match nth_error (executions w) i with
      | None => (set_executions [] w, Normal)
      | Some None => flush_loop fuel' (S i) w
      | Some (Some (fn, ds)) =>
          if existsb dep_changed ds then
            let (w1, o1) := run_cleanup fn w in
            match o1 with
            | Normal =>
                let (w2, o2) := call_fn fn w1 in
                match o2 with
                | Normal => flush_loop fuel' (S i) (set_cleanup fn (result P fn) w2)
                | _ => (w2, o2)
                end
            | _ => (w1, o1)
            end
          else flush_loop fuel' (S i) w
      end
  end.

Definition flush (fuel : nat) (w : world) : world * outcome := flush_loop fuel 0 w.

(** Running the microtask queue once the synchronous code is done: each
    pending microtask is a flush; an exception in one does not stop the
    next. *)
Fixpoint drain_n (n fuel : nat) (w : world) : world :=
  match n with
  | 0 => w
  | S n' =>
      match mtasks w with
      | 0 => w
      | S k => drain_n n' fuel (fst (flush fuel (set_mtasks k w)))
      end
  end.

Definition drain (fuel : nat) (w : world) : world := drain_n fuel fuel w.

(** Top-level calls of a script; an exception thrown by one is reported to
    its caller and the script goes on with the next call. *)
Inductive op : Type :=
| OpEffect (fn : cb) (t : option tok)      (* effect(fn, { signal: t }) *)
| OpGet (s : sig)                          (* s.get() *)
| OpSet (s : sig) (a : val)                (* s.set(a) *)
| OpSubscribe (s : sig) (fn : cb) (t : option tok)
| OpUnsubscribe (s : sig) (fn : cb)
| OpAbort (t : tok)                        (* controller.abort() *)
| OpTick.                                  (* the microtask queue runs *)

Definition step_op (fuel : nat) (o : op) (w : world) : world :=
  match o with
  | OpEffect fn t => fst (add {| e_fn := fn; e_opt := t |} w)
  | OpGet s => fst (get s w)
  | OpSet s a => sset s a w
  | OpSubscribe s fn t => subscribe s fn t w
  | OpUnsubscribe s fn => unsubscribe s fn w
  | OpAbort t => abort t w
  | OpTick => drain fuel w
  end.

Definition run_ops (fuel : nat) (ops : list op) (w : world) : world :=
  fold_left (fun acc o => step_op fuel o acc) ops w.

End Runtime.

(** Callbacks invoked, in order, in a trace. *)
Fixpoint runs (tr : list event) : list cb :=
  match tr with
  | [] => []
  | ERun fn :: r => fn :: runs r
  | _ :: r => runs r
  end.

Definition count_arms (tr : list event) : nat :=
  length (filter (fun e => match e with EArm => true | _ => false end) tr).

(** ** [context()] *)

(** The closure state of a context: its body [fn], the current
    [controller] and the stored cleanup [cb]. *)
Record ctx : Type := {
  c_fn : tok -> option nat;
  controller : tok;
  ctx_cb : option nat
}.

(** [context(fn, { lazy })]: the body [fn(signal)] is recorded as an
    [ECtxRun] event and returns the cleanup it produces. *)
Definition context (fn : tok -> option nat) (lazy : bool) (w : world) : ctx * world :=
  let (t, w1) := new_controller w in
  if negb lazy then ({| c_fn := fn; controller := t; ctx_cb := fn t |}, emit (ECtxRun t) w1)
  else ({| c_fn := fn; controller := t; ctx_cb := None |}, w1).

(** [unload()]: [if (cb) cb(); controller.abort();] *)
Definition unload (c : ctx) (w : world) : world :=
  let w1 := match ctx_cb c with Some k => emit (ECtxCleanup k) w | None => w end in
  abort (controller c) w1.

(** [load()]: [this.unload(); controller = new AbortController();
    cb = fn(controller.signal);] *)
Definition load (c : ctx) (w : world) : ctx * world :=
  let w1 := unload c w in
  let (t, w2) := new_controller w1 in
  ({| c_fn := c_fn c; controller := t; ctx_cb := c_fn c t |}, emit (ECtxRun t) w2).

(** ** Sample programs *)

(** The test "should run effect with multiple dependencies in order":
    [count] is state 0, [count2] is state 1; effect 1 reads both, effect 2
    reads [count]. *)
Definition deps_prog : program := {|
  code := fun fn => match fn with 1 => [IGet 0; IGet 1] | 2 => [IGet 0] | _ => [] end;
  result := fun _ => None;
  cleanup_code := fun _ => [];
  apply_fn := fun _ v => v
|}.

Definition deps_init : sig -> val :=
  fun s => match s with 1 => VNum 100 | _ => VNum 0 end.

Definition deps_script : list op :=
  [OpEffect 1 None; OpEffect 2 None; OpSet 0 (VNum 1); OpTick;
   OpSet 0 (VNum 2); OpSet 1 (VNum 200)].

(** The tests "should execute subscribers in order" and "should unsubscribe
    from state after signal aborts": subscribers 10 and 11, effects 1 and
    2 reading [count] (state 0). *)
Definition subs_prog : program := {|
  code := fun fn => match fn with 1 | 2 => [IGet 0] | _ => [] end;
  result := fun _ => None;
  cleanup_code := fun _ => [];
  apply_fn := fun _ v => v
|}.

(** One subscriber (callback 7) on state 0; function 0 used as an updater
    returns 1. *)
Definition one_prog : program := {|
  code := fun _ => [];
  result := fun _ => None;
  cleanup_code := fun _ => [];
  apply_fn := fun _ _ => VNum 1
|}.

Definition one_sub (init : val) : world :=
  subscribe 0 7 None (init_world (fun _ => init)).

(** Code that neither writes a state nor throws: it can only read. *)
Fixpoint quiet (i : instr) : bool :=
  match i with
  | IGet _ => true
  | ISet _ _ => false
  | IIf _ _ j => quiet j
  | IThrow => false
  end.

Definition quiet_code (l : list instr) : bool := forallb quiet l.

(** The callbacks a flush over these slots reruns, in order, when no rerun
    writes a state. *)
Definition run_list (m : emap) : list cb :=
  flat_map (fun sl => match sl with
                      | Some (g, d) => if existsb dep_changed d then [g] else []
                      | None => []
                      end) m.

Definition pending_changed (m : emap) (f : cb) : bool :=
  match m_get f m with Some d => existsb dep_changed d | None => false end.

(** An effect (callback 0) that reads state 0, reads state 1 only when
    state 0 is 1, and throws when state 0 is 0. *)
Definition stale_prog : program := {|
  code := fun _ => [IIf 0 (VNum 1) (IGet 1); IIf 0 (VNum 0) IThrow];
  result := fun _ => None;
  cleanup_code := fun _ => [];
  apply_fn := fun _ v => v
|}.



(** ** Invariants used in the proofs *)

Section NetZeroDefs.

Variable s : sig.
Variable v0 : val.

Definition single_dep (x : val) : deps := [(s, {| snapshot := v0; update := x |})].

(** While [set]s on [s] are batched, every pending callback is a
    subscriber of [s] whose only dependency records [v0], the value before
    the batch, and the latest value; a subscriber with no entry means
    nothing has changed yet. *)
Definition nz_inv (w : world) : Prop :=
  NoDup (m_keys (executions w)) /\
  forall g, match m_get g (executions w) with
            | Some d => In g (subs_of s w) /\ d = single_dep (value_of s w)
            | None => In g (subs_of s w) -> value_of s w = v0
            end.

Definition nz_ready (old : val) (m : emap) (g : cb) : Prop :=
  (exists x, m_get g m = Some (single_dep x)) \/ (m_get g m = None /\ old = v0).

End NetZeroDefs.

(** A pending record in which no callback has a changed dependency. *)
Definition all_settled (m : emap) : Prop :=
  forall g d, In (Some (g, d)) m -> existsb dep_changed d = false.

Definition sched_frame (w w' : world) : Prop :=
  executions w' = executions w /\ trace w' = trace w /\ cleanups w' = cleanups w /\
  mtasks w' = mtasks w /\ stack w' = stack w.

Definition quiet_pending (P : program) (w : world) : Prop :=
  forall g d, In (Some (g, d)) (executions w) ->
  quiet_code (code P g) = true /\
  (forall c, cleanups w g = Some c -> quiet_code (cleanup_code P c) = true) /\
  (forall c, result P g = Some c -> quiet_code (cleanup_code P c) = true).


(** ** Inputs for the witnesses *)

(** Subscriber 7 of state 0 registered with signal 0, then [set(1)]: one
    rerun of 7 is pending when the signal fires. *)
Definition cancel_world : world :=
  run_ops one_prog 10 [OpSubscribe 0 7 (Some 0); OpSet 0 (VNum 1)] (init_world (fun _ => VNum 0)).

(** A loaded context whose stored cleanup is 3. *)
Definition loaded_ctx : ctx := {| c_fn := fun _ => Some 3; controller := 0; ctx_cb := Some 3 |}.


(** ** Helpers for the further properties *)


(** The dependency record of [fn] for state [s] in the pending record:
    [executions.get(fn)?.get(s)]. *)
Definition pending_dep (fn : cb) (s : sig) (m : emap) : option dep :=
  match m_get fn m with Some d => d_get s d | None => None end.


(** Callback 7 throws whenever it runs. *)
Definition throw_prog : program := {|
  code := fun _ => [IThrow];
  result := fun _ => None;
  cleanup_code := fun _ => [];
  apply_fn := fun _ v => v
|}.

(** Subscriber 7 of state 0, pending after [set(1)]. *)
Definition stalled_world : world := sset throw_prog 0 (VNum 1) (one_sub (VNum 0)).

(** Inside the first run of effect 1, registered with signal 0. *)
Definition tracked_world : world :=
  set_stack [{| e_fn := 1; e_opt := Some 0 |}] (init_world (fun _ => VNum 0)).

(** ** Batches of [queue] calls *)

(** One call [scheduler.queue(fn, s, snapshot, update)]. *)
Definition queue_call (w : world) (c : cb * sig * val * val) : world :=
  let '(fn, s, o, n) := c in queue fn s o n w.

Definition call_cb (c : cb * sig * val * val) : cb :=
  let '(fn, _, _, _) := c in fn.

(** The order the spec gives to the callbacks of a batch: increasing order
    of the most recent time each was queued, i.e. each callback stands at
    the place of its last call only. *)
Fixpoint by_last_queue (l : list cb) : list cb :=
  match l with
  | [] => []
  | x :: r => if existsb (Nat.eqb x) r then by_last_queue r else x :: by_last_queue r
  end.

(** Subscribers 7 and 8 of state 0, both pending after [set(1)]; under
    [throw_prog] both throw when rerun. *)
Definition stalled2_world : world :=
  sset throw_prog 0 (VNum 1) (subscribe 0 8 None (one_sub (VNum 0))).

(** * The test suite, replayed *)

Example deps_script_first_flush :
  runs (trace (run_ops deps_prog 10 (firstn 4 deps_script) (init_world deps_init)))
  = [1; 2; 1; 2].
Proof. vm_compute. reflexivity. Qed.

Example deps_script_requeue :
  runs (trace (run_ops deps_prog 10 (deps_script ++ [OpTick]) (init_world deps_init)))
  = [1; 2; 1; 2; 2; 1].
Proof. vm_compute. reflexivity. Qed.

Example subscribers_in_order :
  runs (trace (run_ops subs_prog 10
    [OpSubscribe 0 10 None; OpEffect 1 None; OpSubscribe 0 11 None; OpEffect 2 None;
     OpSet 0 (VNum 1); OpTick] (init_world (fun _ => VNum 0))))
  = [1; 2; 10; 1; 11; 2].
Proof. vm_compute. reflexivity. Qed.

Example unsubscribe_on_abort :
  runs (trace (run_ops subs_prog 10
    [OpSubscribe 0 10 None; OpSubscribe 0 11 (Some 0); OpEffect 1 None; OpEffect 2 (Some 0);
     OpSet 0 (VNum 1); OpTick; OpAbort 0; OpSet 0 (VNum 2); OpTick]
    (init_world (fun _ => VNum 0))))
  = [1; 2; 10; 11; 1; 2; 10; 1].
Proof. vm_compute. reflexivity. Qed.

(** * Basic facts *)



Lemma strict_eqb_eq : forall a b, strict_eqb a b = true -> a = b.
Proof.
  intros [x|f] [y|g]; simpl; intro H; try discriminate.
  - apply Z.eqb_eq in H; now subst.
  - apply Nat.eqb_eq in H; now subst.
Qed.

Lemma strict_eqb_refl : forall a, strict_eqb a a = true.
Proof. intros [x|f]; simpl; [apply Z.eqb_refl | apply Nat.eqb_refl]. Qed.

Lemma upd_same : forall A (f : nat -> A) k x, upd f k x k = x.
Proof. intros; unfold upd; now rewrite Nat.eqb_refl. Qed.

Lemma upd_other : forall A (f : nat -> A) k k' x, k' <> k -> upd f k x k' = f k'.
Proof. intros; unfold upd; destruct (Nat.eqb_spec k' k); congruence. Qed.

(** [queue] touches neither the states, the stack, the cleanups nor the
    signals. *)
Lemma queue_frame : forall fn s o n w,
  sigs (queue fn s o n w) = sigs w /\ stack (queue fn s o n w) = stack w /\
  cleanups (queue fn s o n w) = cleanups w /\ toks (queue fn s o n w) = toks w.
Proof.
  intros; unfold queue, arm.
  destruct (Nat.ltb _ _); simpl; auto.
Qed.

Lemma fold_queue_frame : forall l s o n w,
  let w' := fold_left (fun acc fn => queue fn s o n acc) l w in
  sigs w' = sigs w /\ stack w' = stack w /\ cleanups w' = cleanups w /\ toks w' = toks w.
Proof.
  induction l as [|g l IH]; intros; simpl in *; auto.
  destruct (IH s o n (queue g s o n w)) as (H1 & H2 & H3 & H4).
  destruct (queue_frame g s o n w) as (K1 & K2 & K3 & K4).
  subst w'; rewrite H1, H2, H3, H4, K1, K2, K3, K4; auto.
Qed.

Section SetFacts.

Variable P : program.

Lemma sset_value : forall s a w,
  value_of s (sset P s a w) =
  (if is_function a then call_updater P a (value_of s w) else a).
Proof.
  intros s a w; unfold sset.
  destruct (strict_eqb (value_of s w) _) eqn:E.
  - apply strict_eqb_eq in E; exact E.
  - unfold value_of at 1.
    match goal with |- context [fold_left (fun acc fn => queue fn ?s0 ?o ?n acc) ?l ?w0] =>
      destruct (fold_queue_frame l s0 o n w0) as (-> & _) end.
    simpl; now rewrite upd_same.
Qed.

(** [set] changes no subscriber set, no stack, no cleanup and no signal. *)
Lemma sset_frame : forall s a w,
  (forall s', subs_of s' (sset P s a w) = subs_of s' w) /\
  stack (sset P s a w) = stack w /\ cleanups (sset P s a w) = cleanups w /\
  toks (sset P s a w) = toks w.
Proof.
  intros s a w; unfold sset.
  destruct (strict_eqb _ _); [repeat split; auto|].
  match goal with |- context [fold_left (fun acc fn => queue fn ?s0 ?o ?n acc) ?l ?w0] =>
    destruct (fold_queue_frame l s0 o n w0) as (H1 & H2 & H3 & H4) end.
  rewrite H2, H3, H4; repeat split; auto.
  intro s'; unfold subs_of at 1; rewrite H1; simpl; unfold upd.
  destruct (Nat.eqb_spec s' s); subst; reflexivity.
Qed.

End SetFacts.

(** * C1: arming the flush *)

(** Claim C1 (code bug).  [queue] arms a microtask whenever the map has
    exactly one entry after the delete-and-reinsert, so requeuing the only
    pending callback arms a second flush in the same batch: two synchronous
    [set]s on a state with a single subscriber arm two flushes. *)
Theorem queue_sole_entry_arms_again :
  let w := run_ops one_prog 10 [OpSet 0 (VNum 1); OpSet 0 (VNum 2)] (one_sub (VNum 0)) in
  count_arms (trace w) = 2 /\ mtasks w = 2 /\ m_keys (executions w) = [7].
Proof. vm_compute. repeat split; reflexivity. Qed.

(** * C2: setting the current value *)

(** Claim C2, as stated, fails for a function value: a state holding the
    function [f] and [set(f)] calls [f] as an updater, so the value changes
    and the subscriber is queued. *)
Lemma set_current_function_value_notifies :
  let w := one_sub (VFn 0) in
  strict_eqb (value_of 0 w) (VFn 0) = true /\
  value_of 0 (sset one_prog 0 (VFn 0) w) = VNum 1 /\
  In (EQueue 7 0) (trace (sset one_prog 0 (VFn 0) w)).
Proof. vm_compute. repeat split; auto. Qed.

(** Claim C2 (amended): for a value [v] that is not a function, if
    [S.get() === v] then [S.set(v)] returns at once: the world, with its
    trace of queued notifications, is unchanged. *)
Theorem set_same_value_noop : forall P s v w,
  is_function v = false ->
  strict_eqb (value_of s w) v = true ->
  sset P s v w = w.
Proof.
  intros P s v w Hf Heq; unfold sset; rewrite Hf, Heq; reflexivity.
Qed.

Lemma set_same_value_noop_witness :
  is_function (VNum 3) = false /\ strict_eqb (value_of 0 (one_sub (VNum 3))) (VNum 3) = true /\
  sset one_prog 0 (VNum 3) (one_sub (VNum 3)) = one_sub (VNum 3).
Proof.
  split; [reflexivity|]; split; [reflexivity|].
  apply set_same_value_noop; reflexivity.
Defined.

(** * C9: function arguments are updaters *)

(** Claim C9: [set] branches on [typeof value === "function"]: a function
    argument [f] is always called on the current value and its result is
    stored; any other argument is stored as it is. *)
Theorem set_function_is_updater : forall P s a w,
  value_of s (sset P s a w) =
  match a with VFn f => apply_fn P f (value_of s w) | VNum _ => a end.
Proof.
  intros P s a w; rewrite sset_value; destruct a; reflexivity.
Qed.

(** * The [executions] map *)

Lemma m_get_delete_same : forall k m, m_get k (m_delete k m) = None.
Proof.
  intros k m; induction m as [|[[k' d]|] m IH]; simpl; auto.
  destruct (Nat.eqb_spec k k'); simpl; auto.
  destruct (Nat.eqb_spec k k'); congruence.
Qed.

Lemma m_get_delete_other : forall k k' m, k' <> k -> m_get k' (m_delete k m) = m_get k' m.
Proof.
  intros k k' m Hne; induction m as [|[[j d]|] m IH]; simpl; auto.
  destruct (Nat.eqb_spec k j); simpl.
  - subst; destruct (Nat.eqb_spec k' j); congruence.
  - now rewrite IH.
Qed.

Lemma m_get_app_new : forall k k' d m,
  m_get k' (m ++ [Some (k, d)]) =
  match m_get k' m with Some x => Some x | None => if Nat.eqb k' k then Some d else None end.
Proof.
  intros k k' d m; induction m as [|[[j e]|] m IH]; simpl; auto.
  destruct (Nat.eqb k' j); auto.
Qed.

Lemma m_keys_app : forall m1 m2, m_keys (m1 ++ m2) = m_keys m1 ++ m_keys m2.
Proof. intros m1 m2; induction m1 as [|[[j e]|] m1 IH]; simpl; congruence. Qed.

Lemma m_keys_delete : forall k m,
  m_keys (m_delete k m) = filter (fun x => negb (Nat.eqb k x)) (m_keys m).
Proof.
  intros k m; unfold m_delete; induction m as [|[[j e]|] m IH]; simpl; auto.
  destruct (Nat.eqb k j); simpl; [assumption | f_equal; assumption].
Qed.

Lemma m_get_unique : forall m g d,
  NoDup (m_keys m) -> In (Some (g, d)) m -> m_get g m = Some d.
Proof.
  induction m as [|[[j e]|] m IH]; intros g d Hnd Hin; simpl in *.
  - contradiction.
  - inversion Hnd as [|x l Hnot Hnd']; subst.
    destruct Hin as [Heq | Hin].
    + inversion Heq; subst; now rewrite Nat.eqb_refl.
    + destruct (Nat.eqb_spec g j); [|now apply IH].
      subst; exfalso; apply Hnot.
      clear -Hin; induction m as [|[[k f]|] m IHm]; simpl in *; [contradiction| |].
      * destruct Hin as [Heq|Hin]; [inversion Heq; auto|right; auto].
      * destruct Hin as [Heq|Hin]; [discriminate|auto].
  - destruct Hin as [Heq|Hin]; [discriminate|auto].
Qed.

(** The pending entry [queue] leaves for [fn]. *)
Lemma queue_executions : forall fn s o n w,
  executions (queue fn s o n w) =
  m_delete fn (executions w) ++
  [Some (fn, let ds := match m_get fn (executions w) with Some d => d | None => [] end in
             match d_get s ds with
             | Some x => d_set s {| snapshot := snapshot x; update := n |} ds
             | None => d_set s {| snapshot := o; update := n |} ds
             end)].
Proof.
  intros; unfold queue, m_set.
  rewrite m_get_delete_same.
  destruct (Nat.ltb _ _); reflexivity.
Qed.

(** [queue] moves [fn] to the end of the iteration order and keeps the
    order of the other pending callbacks. *)
Lemma queue_keys : forall fn s o n w,
  m_keys (executions (queue fn s o n w)) =
  filter (fun x => negb (Nat.eqb fn x)) (m_keys (executions w)) ++ [fn].
Proof.
  intros; rewrite queue_executions, m_keys_app, m_keys_delete; reflexivity.
Qed.

Lemma NoDup_filter_app : forall fn l,
  NoDup l -> NoDup (filter (fun x => negb (Nat.eqb fn x)) l ++ [fn]).
Proof.
  intros fn l Hnd.
  apply NoDup_app; [apply NoDup_filter; auto | constructor; [auto|constructor] |].
  intros x Hx Hx'; apply filter_In in Hx as [_ Hx]; destruct Hx' as [<-|[]].
  now rewrite Nat.eqb_refl in Hx.
Qed.

Lemma queue_nodup : forall fn s o n w,
  NoDup (m_keys (executions w)) -> NoDup (m_keys (executions (queue fn s o n w))).
Proof. intros; rewrite queue_keys; now apply NoDup_filter_app. Qed.

Lemma queue_get_other : forall fn g s o n w,
  g <> fn -> m_get g (executions (queue fn s o n w)) = m_get g (executions w).
Proof.
  intros; rewrite queue_executions, m_get_app_new, m_get_delete_other by auto.
  destruct (m_get g (executions w)); auto.
  destruct (Nat.eqb_spec g fn); congruence.
Qed.

Lemma queue_get_same : forall fn s o n w,
  m_get fn (executions (queue fn s o n w)) =
  Some (let ds := match m_get fn (executions w) with Some d => d | None => [] end in
        match d_get s ds with
        | Some x => d_set s {| snapshot := snapshot x; update := n |} ds
        | None => d_set s {| snapshot := o; update := n |} ds
        end).
Proof.
  intros; rewrite queue_executions, m_get_app_new, m_get_delete_same, Nat.eqb_refl.
  reflexivity.
Qed.

Lemma runs_app : forall t1 t2, runs (t1 ++ t2) = runs t1 ++ runs t2.
Proof. induction t1 as [|[] t1 IH]; intros; simpl; try rewrite IH; auto. Qed.

Lemma queue_runs : forall fn s o n w, runs (trace (queue fn s o n w)) = runs (trace w).
Proof.
  intros; unfold queue, arm, emit.
  destruct (Nat.ltb _ _); simpl; rewrite ?runs_app, ?app_nil_r; simpl;
    rewrite ?runs_app; simpl; rewrite ?app_nil_r; auto.
Qed.

Lemma fold_queue_runs : forall l s o n w,
  runs (trace (fold_left (fun acc fn => queue fn s o n acc) l w)) = runs (trace w).
Proof.
  induction l as [|g l IH]; intros; simpl; auto.
  rewrite IH; apply queue_runs.
Qed.

Lemma sset_runs : forall P s a w, runs (trace (sset P s a w)) = runs (trace w).
Proof.
  intros; unfold sset; destruct (strict_eqb _ _); auto.
  rewrite fold_queue_runs; reflexivity.
Qed.

(** * C3: a batch of [set]s that returns to the old value *)

Section NetZero.

Variable P : program.
Variable s : sig.
Variable v0 : val.

Lemma queue_nz : forall g old nv w,
  nz_ready s v0 old (executions w) g ->
  m_get g (executions (queue g s old nv w)) = Some (single_dep s v0 nv).
Proof.
  intros g old nv w [[x Hx] | [Hn Ho]]; rewrite queue_get_same.
  - rewrite Hx; simpl; now rewrite Nat.eqb_refl.
  - rewrite Hn; simpl; now subst.
Qed.

Lemma fold_queue_nz : forall l old nv w,
  NoDup (m_keys (executions w)) ->
  (forall g, In g l -> nz_ready s v0 old (executions w) g) ->
  let w' := fold_left (fun acc fn => queue fn s old nv acc) l w in
  NoDup (m_keys (executions w')) /\
  (forall g, In g l -> m_get g (executions w') = Some (single_dep s v0 nv)) /\
  (forall g, ~ In g l -> m_get g (executions w') = m_get g (executions w)).
Proof.
  induction l as [|a l IH]; intros old nv w Hnd Hr; simpl.
  - split; [exact Hnd | split; [intros g0 [] | auto]].
  - destruct (IH old nv (queue a s old nv w)) as (H1 & H2 & H3).
    + now apply queue_nodup.
    + intros g Hg; destruct (Nat.eqb_spec g a).
      * subst; left; exists nv; apply queue_nz, Hr; now left.
      * unfold nz_ready; rewrite queue_get_other by auto; apply Hr; now right.
    + repeat split; auto.
      * intros g Hg; destruct (in_dec Nat.eq_dec g l) as [Hin|Hnin]; auto.
        destruct Hg as [<-|Hg]; [|contradiction].
        rewrite H3 by auto; apply queue_nz, Hr; now left.
      * intros g Hg; rewrite H3 by tauto; apply queue_get_other; intro; subst; tauto.
Qed.

Lemma sset_nz : forall a w, nz_inv s v0 w -> nz_inv s v0 (sset P s a w).
Proof.
  intros a w [Hnd Hall]; unfold sset.
  destruct (strict_eqb (value_of s w) _) eqn:E; [split; auto|].
  set (nv := if is_function a then call_updater P a (value_of s w) else a) in *.
  set (w1 := set_sigs (upd (sigs w) s {| value := nv; subscribers := subs_of s w |}) w).
  destruct (fold_queue_nz (subs_of s w) (value_of s w) nv w1) as (H1 & H2 & H3); auto.
  - intros g Hg; unfold nz_ready; simpl; specialize (Hall g).
    destruct (m_get g (executions w)) as [d|].
    + left; exists (value_of s w); destruct Hall as [_ ->]; reflexivity.
    + right; auto.
  - destruct (fold_queue_frame (subs_of s w) s (value_of s w) nv w1) as (Hs & _).
    assert (Hsub : forall w', sigs w' = sigs w1 -> subs_of s w' = subs_of s w)
      by (intros w' Hw'; unfold subs_of; rewrite Hw'; simpl; now rewrite upd_same).
    assert (Hval : forall w', sigs w' = sigs w1 -> value_of s w' = nv)
      by (intros w' Hw'; unfold value_of; rewrite Hw'; simpl; now rewrite upd_same).
    split; auto.
    intro g; rewrite (Hsub _ Hs), (Hval _ Hs).
    destruct (in_dec Nat.eq_dec g (subs_of s w)) as [Hin|Hnin].
    + rewrite H2 by auto; auto.
    + rewrite H3 by auto; simpl; specialize (Hall g).
      destruct (m_get g (executions w)); tauto.
Qed.

Lemma sets_nz : forall args w,
  nz_inv s v0 w -> nz_inv s v0 (fold_left (fun acc a => sset P s a acc) args w).
Proof.
  induction args as [|a args IH]; intros w H; simpl; auto.
  apply IH, sset_nz, H.
Qed.

End NetZero.

Lemma flush_settled : forall P fuel i w,
  all_settled (executions w) ->
  flush_loop P fuel i w = (w, OutOfFuel) \/
  flush_loop P fuel i w = (set_executions [] w, Normal).
Proof.
  intros P fuel; induction fuel as [|fuel IH]; intros i w H; simpl; auto.
  destruct (nth_error (executions w) i) as [[[g d]|]|] eqn:E; auto.
  rewrite (H g d) by (eapply nth_error_In; eauto); auto.
Qed.

Lemma drain_settled : forall P n fuel w,
  all_settled (executions w) -> trace (drain_n P n fuel w) = trace w.
Proof.
  intros P n fuel; induction n as [|n IH]; intros w H; simpl; auto.
  destruct (mtasks w) as [|k]; auto.
  unfold flush; destruct (flush_settled P fuel 0 (set_mtasks k w)) as [E|E]; auto;
    rewrite E; simpl.
  - rewrite IH; [reflexivity | exact H].
  - rewrite IH; [reflexivity | intros g d []].
Qed.

Lemma sets_runs : forall P s args w,
  runs (trace (fold_left (fun acc a => sset P s a acc) args w)) = runs (trace w).
Proof.
  induction args as [|a args IH]; intros w; simpl; auto.
  rewrite IH; apply sset_runs.
Qed.

(** Claim C3: starting a batch with nothing pending, any synchronous
    sequence of [set] calls on a state [s] that ends with [s] holding its
    old value again leads to no callback invocation at all, neither during
    the [set]s nor when the armed flushes run. *)
Theorem net_zero_batch_runs_nothing : forall P fuel s args w,
  executions w = [] ->
  let w' := fold_left (fun acc a => sset P s a acc) args w in
  strict_eqb (value_of s w') (value_of s w) = true ->
  runs (trace (drain P fuel w')) = runs (trace w).
Proof.
  intros P fuel s args w Hemp w' Heq.
  assert (Hinv : nz_inv s (value_of s w) w').
  { apply sets_nz. split; [rewrite Hemp; constructor|].
    intro g; rewrite Hemp; simpl; auto. }
  apply strict_eqb_eq in Heq.
  unfold drain; rewrite drain_settled; [apply sets_runs|].
  destruct Hinv as [Hnd Hall].
  intros g d Hin; specialize (Hall g).
  rewrite (m_get_unique _ _ _ Hnd Hin) in Hall.
  destruct Hall as [_ ->]; unfold single_dep, dep_changed; rewrite Heq.
  cbn [existsb snd snapshot update]; now rewrite strict_eqb_refl.
Qed.

(** * Flushes whose reruns only read *)

Lemma sched_frame_refl : forall w, sched_frame w w.
Proof. intro; repeat split. Qed.

Lemma sched_frame_trans : forall w1 w2 w3,
  sched_frame w1 w2 -> sched_frame w2 w3 -> sched_frame w1 w3.
Proof. unfold sched_frame; intros; intuition congruence. Qed.

Lemma get_frame : forall s w, sched_frame w (fst (get s w)).
Proof.
  intros s w; unfold get, subscribe, add_listener.
  destruct (current w) as [e|]; [|apply sched_frame_refl].
  destruct (existsb _ _), (e_opt e); repeat split.
Qed.

Lemma exec_instr_quiet : forall P i w, quiet i = true ->
  exists w', exec_instr P i w = (w', Normal) /\ sched_frame w w'.
Proof.
  intros P i; induction i as [s|s a|c v j IH|]; intros w Hq; cbn [exec_instr quiet] in *;
    try discriminate.
  - eexists; split; [reflexivity|apply get_frame].
  - destruct (get c w) as [w1 x] eqn:E; cbn beta iota.
    assert (F : sched_frame w w1) by (change w1 with (fst (w1, x)); rewrite <- E; apply get_frame).
    destruct (strict_eqb x v).
    + destruct (IH w1 Hq) as (w2 & -> & F2); eexists; split; [reflexivity|].
      eapply sched_frame_trans; eauto.
    + eexists; split; [reflexivity|exact F].
Qed.

Lemma exec_code_quiet : forall P l w, quiet_code l = true ->
  exists w', exec_code P l w = (w', Normal) /\ sched_frame w w'.
Proof.
  intros P l; induction l as [|i l IH]; intros w Hq; simpl in *.
  - eexists; split; [reflexivity|apply sched_frame_refl].
  - apply andb_true_iff in Hq as [Hi Hl].
    destruct (exec_instr_quiet P i w Hi) as (w1 & -> & F1).
    destruct (IH w1 Hl) as (w2 & -> & F2).
    eexists; split; [reflexivity|]; eapply sched_frame_trans; eauto.
Qed.

Lemma skipn_nth_error : forall A (m : list A) i x,
  nth_error m i = Some x -> skipn i m = x :: skipn (S i) m.
Proof.
  intros A m; induction m as [|y m IH]; intros [|i] x H; simpl in *; try discriminate.
  - now inversion H.
  - now apply IH.
Qed.

(** When no pending callback or cleanup writes a state or throws, a flush
    reruns exactly the pending callbacks with a changed dependency, in the
    order of the record, and then clears the record. *)
Lemma flush_quiet : forall P fuel i w,
  quiet_pending P w ->
  length (executions w) - i < fuel ->
  exists w', flush_loop P fuel i w = (w', Normal) /\ executions w' = [] /\
    runs (trace w') = runs (trace w) ++ run_list (skipn i (executions w)).
Proof.
  intros P fuel; induction fuel as [|fuel IH]; intros i w Hq Hf; [lia|]; simpl.
  destruct (nth_error (executions w) i) as [[[g d]|]|] eqn:E.
  - pose proof (skipn_nth_error _ _ _ _ E) as Hsk.
    pose proof (nth_error_In _ _ E) as Hin.
    assert (Hlen : i < length (executions w)) by (apply nth_error_Some; congruence).
    rewrite Hsk; simpl.
    destruct (Hq g d Hin) as (Hc & Hcl & Hres).
    destruct (existsb dep_changed d).
    + unfold run_cleanup.
      destruct (cleanups w g) as [c|] eqn:Ec.
      * destruct (exec_code_quiet P (cleanup_code P c) (emit (ECleanup g) w) (Hcl c eq_refl))
          as (w1 & -> & F1).
        unfold call_fn.
        destruct (exec_code_quiet P (code P g) (emit (ERun g) w1) Hc) as (w2 & -> & F2).
        destruct F1 as (X1 & T1 & C1 & _), F2 as (X2 & T2 & C2 & _).
        simpl in X1, X2, T1, T2, C1, C2.
        destruct (IH (S i) (set_cleanup g (result P g) w2)) as (w3 & -> & X3 & R3).
        -- intros h e Hh; simpl in Hh; rewrite X2, X1 in Hh; simpl in Hh.
           destruct (Hq h e Hh) as (Q1 & Q2 & Q3); repeat split; auto.
           intros c' Hc'; simpl in Hc'; unfold upd in Hc'; rewrite C2, C1 in Hc'; simpl in Hc'.
           destruct (Nat.eqb_spec h g); [subst; auto|auto].
        -- simpl; rewrite X2, X1; simpl; lia.
        -- exists w3; repeat split; auto.
           rewrite R3; simpl; rewrite X2, X1, T2, T1; simpl.
           rewrite !runs_app; simpl; rewrite app_nil_r, <- app_assoc; reflexivity.
      * unfold call_fn.
        destruct (exec_code_quiet P (code P g) (emit (ERun g) w) Hc) as (w2 & -> & F2).
        destruct F2 as (X2 & T2 & C2 & _).
        simpl in X2, T2, C2.
        destruct (IH (S i) (set_cleanup g (result P g) w2)) as (w3 & -> & X3 & R3).
        -- intros h e Hh; simpl in Hh; rewrite X2 in Hh; simpl in Hh.
           destruct (Hq h e Hh) as (Q1 & Q2 & Q3); repeat split; auto.
           intros c' Hc'; simpl in Hc'; unfold upd in Hc'; rewrite C2 in Hc'; simpl in Hc'.
           destruct (Nat.eqb_spec h g); [subst; auto|auto].
        -- simpl; rewrite X2; simpl; lia.
        -- exists w3; repeat split; auto.
           rewrite R3; simpl; rewrite X2, T2; simpl.
           rewrite !runs_app; simpl; rewrite <- app_assoc; reflexivity.
    + destruct (IH (S i) w Hq) as (w3 & -> & X3 & R3); [lia|].
      exists w3; repeat split; auto.
  - pose proof (skipn_nth_error _ _ _ _ E) as Hsk.
    assert (Hlen : i < length (executions w)) by (apply nth_error_Some; congruence).
    destruct (IH (S i) w Hq) as (w3 & -> & X3 & R3); [lia|].
    exists w3; repeat split; auto; rewrite R3, Hsk; reflexivity.
  - apply nth_error_None in E.
    exists (set_executions [] w); repeat split.
    rewrite skipn_all2 by lia; simpl; now rewrite app_nil_r.
Qed.

Lemma filter_filter : forall A (p q : A -> bool) l,
  filter p (filter q l) = filter (fun x => q x && p x) l.
Proof.
  induction l as [|x l IH]; simpl; auto.
  destruct (q x); simpl; [destruct (p x); simpl; now rewrite IH|exact IH].
Qed.

(** * C4: callbacks run in the order of their last [queue] *)

Lemma fold_queue_call_keys : forall calls w,
  m_keys (executions (fold_left queue_call calls w)) =
  filter (fun k => negb (existsb (Nat.eqb k) (map call_cb calls))) (m_keys (executions w)) ++
  by_last_queue (map call_cb calls).
Proof.
  induction calls as [|[[[fn s] o] n] calls IH]; intros w; cbn [fold_left map].
  - simpl; rewrite app_nil_r.
    induction (m_keys (executions w)) as [|x l IHl]; simpl; auto; now rewrite <- IHl.
  - rewrite IH; cbn [queue_call call_cb]; rewrite queue_keys.
    rewrite filter_app, filter_filter, <- app_assoc; f_equal.
    + apply filter_ext; intro x; simpl.
      rewrite (Nat.eqb_sym fn x); destruct (Nat.eqb x fn); reflexivity.
    + simpl; destruct (existsb (Nat.eqb fn) (map call_cb calls)); reflexivity.
Qed.

Lemma fold_queue_call_nodup : forall calls w,
  NoDup (m_keys (executions w)) -> NoDup (m_keys (executions (fold_left queue_call calls w))).
Proof.
  induction calls as [|[[[fn s] o] n] calls IH]; intros w H; cbn [fold_left]; auto.
  apply IH; cbn [queue_call]; now apply queue_nodup.
Qed.

Lemma run_list_pending : forall m,
  NoDup (m_keys m) -> run_list m = filter (pending_changed m) (m_keys m).
Proof.
  induction m as [|[[k d]|] m IH]; intros H; auto.
  - simpl in H; inversion H as [|? ? Hk Hnd]; subst.
    unfold run_list; cbn [flat_map]; fold (run_list m).
    rewrite IH by auto; cbn [m_keys filter].
    assert (Ek : pending_changed (Some (k, d) :: m) k = existsb dep_changed d)
      by (unfold pending_changed; simpl; now rewrite Nat.eqb_refl).
    rewrite Ek.
    assert (E : filter (pending_changed (Some (k, d) :: m)) (m_keys m) =
                filter (pending_changed m) (m_keys m)).
    { apply filter_ext_in; intros x Hx; unfold pending_changed; simpl.
      destruct (Nat.eqb_spec x k); [subst; contradiction|reflexivity]. }
    rewrite E; destruct (existsb dep_changed d); reflexivity.
Qed.

(** Claim C4: for any batch of [queue] calls made while nothing was
    pending, the pending record lists the callbacks in increasing order of
    the most recent time each was queued (a callback queued again moves
    after the others), and the flush reruns them in that order, each one
    whose recorded dependencies changed, provided the reruns and stored
    cleanups only read. *)
Theorem runs_follow_last_queue_order : forall P fuel w calls,
  executions w = [] ->
  let w' := fold_left queue_call calls w in
  quiet_pending P w' -> length (executions w') < fuel ->
  m_keys (executions w') = by_last_queue (map call_cb calls) /\
  exists w'', flush P fuel w' = (w'', Normal) /\
    runs (trace w'') =
    runs (trace w') ++ filter (pending_changed (executions w')) (by_last_queue (map call_cb calls)).
Proof.
  intros P fuel w calls Hemp w' Hq Hf.
  assert (Hk : m_keys (executions w') = by_last_queue (map call_cb calls))
    by (subst w'; rewrite fold_queue_call_keys, Hemp; reflexivity).
  assert (Hnd : NoDup (m_keys (executions w')))
    by (subst w'; apply fold_queue_call_nodup; rewrite Hemp; constructor).
  split; [exact Hk|].
  destruct (flush_quiet P fuel 0 w' Hq) as (w'' & H1 & _ & H3); [lia|].
  exists w''; split; [exact H1|].
  rewrite H3, <- Hk; simpl; now rewrite run_list_pending.
Qed.

(** * C5: reruns are not tracked *)








(** Claim C5 (code bug): reruns are meant to be untracked, but [add] pops
    the stack only when the callback returns, with no [try/finally]. Here an
    effect's first run reads state 0 and throws; its entry stays on the
    stack. After [set(1)] on state 0 the flush reruns it, the rerun reads
    state 1 for the first time while [current()] is that entry, and the
    effect becomes a subscriber of state 1. *)
Lemma rerun_tracked_after_throw :
  let w := run_ops stale_prog 10 [OpEffect 0 None; OpSet 0 (VNum 1)] (init_world (fun _ => VNum 0)) in
  current w = Some {| e_fn := 0; e_opt := None |} /\
  ~ In 0 (subs_of 1 w) /\ In 0 (subs_of 1 (drain stale_prog 10 w)) /\
  In (ERun 0) (trace (drain stale_prog 10 w)).
Proof. vm_compute. split; [reflexivity|]. split; [tauto|]. split; tauto. Qed.

(** * C6: cancellation *)

Lemma run_listener_frame : forall l w,
  executions (run_listener l w) = executions w /\ mtasks (run_listener l w) = mtasks w /\
  cleanups (run_listener l w) = cleanups w /\ trace (run_listener l w) = trace w.
Proof. intros [s fn] w; repeat split. Qed.

Lemma fold_listeners_frame : forall ls w,
  let w' := fold_left (fun acc l => run_listener l acc) ls w in
  executions w' = executions w /\ mtasks w' = mtasks w /\ cleanups w' = cleanups w.
Proof.
  induction ls as [|l ls IH]; intros w; simpl; [repeat split|].
  destruct (IH (run_listener l w)) as (H1 & H2 & H3).
  destruct (run_listener_frame l w) as (K1 & K2 & K3 & _).
  repeat split; congruence.
Qed.

Lemma run_listener_keeps_out : forall l s fn w,
  ~ In fn (subs_of s w) -> ~ In fn (subs_of s (run_listener l w)).
Proof.
  intros [s' g] s fn w H; unfold subs_of; simpl; unfold upd.
  destruct (Nat.eqb_spec s s'); [|exact H].
  subst; simpl; intro Hin; apply filter_In in Hin as [Hin _]; contradiction.
Qed.

Lemma run_listener_removes : forall s fn w, ~ In fn (subs_of s (run_listener (LUnsub s fn) w)).
Proof.
  intros s fn w; unfold subs_of; simpl; rewrite upd_same; simpl.
  intro Hin; apply filter_In in Hin as [_ Hin]; now rewrite Nat.eqb_refl in Hin.
Qed.

Lemma fold_listeners_out : forall ls s fn w,
  In (LUnsub s fn) ls \/ ~ In fn (subs_of s w) ->
  ~ In fn (subs_of s (fold_left (fun acc l => run_listener l acc) ls w)).
Proof.
  induction ls as [|l ls IH]; intros s fn w H; simpl in *.
  - destruct H as [[]|H]; exact H.
  - apply IH.
    destruct H as [[->|Hin]|Hout]; auto.
    + right; apply run_listener_removes.
    + right; now apply run_listener_keeps_out.
Qed.

Lemma queue_trace : forall fn s o n w,
  exists tr, trace (queue fn s o n w) = trace w ++ EQueue fn s :: tr /\
  forall e, In e tr -> e = EArm.
Proof.
  intros; unfold queue, arm.
  destruct (Nat.ltb _ _); simpl.
  - exists []; split; [reflexivity | intros e []].
  - exists [EArm]; split; [now rewrite <- app_assoc | intros e [<-|[]]; auto].
Qed.

Lemma fold_queue_trace : forall l s o n w,
  exists tr, trace (fold_left (fun acc fn => queue fn s o n acc) l w) = trace w ++ tr /\
  forall g s', In (EQueue g s') tr -> In g l /\ s' = s.
Proof.
  induction l as [|a l IH]; intros s o n w; simpl.
  - exists []; split; [now rewrite app_nil_r | intros g s' []].
  - destruct (queue_trace a s o n w) as (tr1 & E1 & H1).
    destruct (IH s o n (queue a s o n w)) as (tr2 & E2 & H2).
    exists (EQueue a s :: tr1 ++ tr2); split.
    + rewrite E2, E1, <- app_assoc; reflexivity.
    + intros g s' [Heq|Hin]; [inversion Heq; auto|].
      apply in_app_or in Hin as [Hin|Hin].
      * apply H1 in Hin; discriminate.
      * destruct (H2 g s' Hin); auto.
Qed.

Lemma sset_trace : forall P s a w,
  exists tr, trace (sset P s a w) = trace w ++ tr /\
  forall g s', In (EQueue g s') tr -> In g (subs_of s w) /\ s' = s.
Proof.
  intros; unfold sset.
  destruct (strict_eqb _ _).
  - exists []; split; [now rewrite app_nil_r | intros g s' []].
  - match goal with |- context [fold_left (fun acc fn => queue fn ?s0 ?o ?n acc) ?l ?w0] =>
      destruct (fold_queue_trace l s0 o n w0) as (tr & E & H) end.
    exists tr; split; auto.
Qed.

Lemma sets_never_queue : forall P s fn args w,
  ~ In fn (subs_of s w) ->
  let w' := fold_left (fun acc sa => sset P (fst sa) (snd sa) acc) args w in
  ~ In fn (subs_of s w') /\ exists tr, trace w' = trace w ++ tr /\ ~ In (EQueue fn s) tr.
Proof.
  intros P s fn args; induction args as [|[s' a] args IH]; intros w Hout; simpl.
  - split; auto; exists []; split; [now rewrite app_nil_r | intros []].
  - destruct (sset_frame P s' a w) as (Hsub & _).
    destruct (sset_trace P s' a w) as (tr1 & E1 & H1).
    destruct (IH (sset P s' a w)) as (Hout' & tr2 & E2 & H2); [now rewrite Hsub|].
    split; auto.
    exists (tr1 ++ tr2); split; [rewrite E2, E1, app_assoc; reflexivity|].
    intro Hin; apply in_app_or in Hin as [Hin|Hin]; [|contradiction].
    destruct (H1 _ _ Hin) as [Hg <-]; contradiction.
Qed.

Lemma run_list_in : forall m fn d,
  In (Some (fn, d)) m -> existsb dep_changed d = true -> In fn (run_list m).
Proof.
  intros m fn d Hin Hc; unfold run_list; apply in_flat_map.
  exists (Some (fn, d)); split; auto; rewrite Hc; now left.
Qed.

(** Claim C6: when a signal [t] fires after a subscription of [fn] to [s]
    was registered with it, [fn] leaves the subscriber set of [s], and no
    later [set] (on any state) hands [fn] to the scheduler for [s]; the
    pending record and the armed microtasks are untouched, so a rerun of
    [fn] queued before [t] fired still happens at the flush (here for a
    flush whose reruns only read). *)
Theorem cancel_stops_future_keeps_pending : forall P fuel w s fn t args,
  aborted (toks w t) = false ->
  In (LUnsub s fn) (listeners (toks w t)) ->
  let w1 := abort t w in
  let w2 := fold_left (fun acc sa => sset P (fst sa) (snd sa) acc) args w1 in
  ~ In fn (subs_of s w1) /\ ~ In fn (subs_of s w2) /\
  (exists tr, trace w2 = trace w1 ++ tr /\ ~ In (EQueue fn s) tr) /\
  executions w1 = executions w /\ mtasks w1 = mtasks w /\
  (quiet_pending P w -> length (executions w) < fuel ->
   forall d, In (Some (fn, d)) (executions w) -> existsb dep_changed d = true ->
   In fn (runs (trace (fst (flush P fuel w1))))).
Proof.
  intros P fuel w s fn t args Hna Hl w1 w2.
  assert (Hout : ~ In fn (subs_of s w1)).
  { subst w1; unfold abort; rewrite Hna; apply fold_listeners_out; left; exact Hl. }
  assert (Hfr : executions w1 = executions w /\ mtasks w1 = mtasks w /\ cleanups w1 = cleanups w).
  { subst w1; unfold abort; rewrite Hna.
    destruct (fold_listeners_frame (listeners (toks w t))
      (emit (EAbort t) (set_toks (upd (toks w) t {| aborted := true; listeners := listeners (toks w t) |}) w)))
      as (H1 & H2 & H3).
    rewrite H1, H2, H3; repeat split. }
  destruct Hfr as (X1 & M1 & C1).
  destruct (sets_never_queue P s fn args w1 Hout) as (Hout2 & tr & E & Hq).
  repeat split; auto; [exists tr; auto|].
  intros Hqp Hf d Hin Hc.
  unfold flush; destruct (flush_quiet P fuel 0 w1) as (w' & -> & _ & R).
  - intros g e Hge; rewrite X1 in Hge; rewrite C1; apply (Hqp g e Hge).
  - rewrite X1; lia.
  - simpl; rewrite R, X1; apply in_or_app; right.
    eapply run_list_in; eauto.
Qed.

(** * C7 and C10: contexts *)

Lemma fold_listeners_toks_trace : forall ls w,
  let w' := fold_left (fun acc l => run_listener l acc) ls w in
  toks w' = toks w /\ trace w' = trace w /\ next_tok w' = next_tok w.
Proof.
  induction ls as [|l ls IH]; intros w; cbn [fold_left]; [repeat split|].
  destruct (IH (run_listener l w)) as (H1 & H2 & H3).
  rewrite H1, H2, H3; destruct l; repeat split.
Qed.

Lemma abort_trace : forall t w,
  trace (abort t w) = trace w ++ (if aborted (toks w t) then [] else [EAbort t]) /\
  aborted (toks (abort t w) t) = true /\ next_tok (abort t w) = next_tok w.
Proof.
  intros t w; unfold abort.
  destruct (aborted (toks w t)) eqn:E.
  - rewrite app_nil_r; repeat split; auto.
  - destruct (fold_listeners_toks_trace (listeners (toks w t))
      (emit (EAbort t) (set_toks (upd (toks w) t {| aborted := true;
                                                    listeners := listeners (toks w t) |}) w)))
      as (H1 & H2 & H3).
    rewrite H1, H2, H3; simpl; rewrite upd_same; repeat split.
Qed.

Lemma unload_trace : forall c w,
  trace (unload c w) =
  trace w ++ (match ctx_cb c with Some k => [ECtxCleanup k] | None => [] end) ++
  (if aborted (toks w (controller c)) then [] else [EAbort (controller c)]) /\
  aborted (toks (unload c w) (controller c)) = true /\
  next_tok (unload c w) = next_tok w.
Proof.
  intros c w; unfold unload.
  destruct (ctx_cb c) as [k|].
  - destruct (abort_trace (controller c) (emit (ECtxCleanup k) w)) as (H1 & H2 & H3).
    rewrite H1, H3; simpl; rewrite <- app_assoc; repeat split; auto.
  - destruct (abort_trace (controller c) w) as (H1 & H2 & H3); auto.
Qed.

(** Claim C7: a context created without [lazy] runs its body once, at
    once, with a new signal (never fired, no listeners) and stores the
    cleanup it returns; a lazy one runs nothing; [load()] first runs
    [unload()] (the stored cleanup if there is one, then the abort of the
    current signal, which fires it unless it already fired), and only then
    creates a new signal and runs the body with it, storing the new
    cleanup.  [unload()] never runs the body. *)
Theorem context_lifecycle : forall fn w,
  (let (c, w') := context fn false w in
   controller c = next_tok w /\ ctx_cb c = fn (next_tok w) /\
   trace w' = trace w ++ [ECtxRun (next_tok w)] /\
   toks w' (controller c) = {| aborted := false; listeners := [] |}) /\
  (let (c, w') := context fn true w in ctx_cb c = None /\ trace w' = trace w) /\
  (forall c, let (c', w') := load c w in
   let w1 := unload c w in
   trace w1 = trace w ++ (match ctx_cb c with Some k => [ECtxCleanup k] | None => [] end) ++
              (if aborted (toks w (controller c)) then [] else [EAbort (controller c)]) /\
   controller c' = next_tok w1 /\ c_fn c' = c_fn c /\ ctx_cb c' = c_fn c (next_tok w1) /\
   trace w' = trace w1 ++ [ECtxRun (next_tok w1)] /\
   toks w' (controller c') = {| aborted := false; listeners := [] |}).
Proof.
  intros fn w; split; [|split].
  - simpl; rewrite upd_same; repeat split.
  - simpl; repeat split.
  - intro c; unfold load; simpl.
    destruct (unload_trace c w) as (H1 & _ & _).
    rewrite upd_same; repeat split; auto.
Qed.

Lemma repeat_snoc : forall A (x : A) n, repeat x n ++ [x] = repeat x (S n).
Proof. intros A x n; induction n as [|n IH]; simpl; [reflexivity|now rewrite IH]. Qed.

Lemma unload_again : forall c w k,
  ctx_cb c = Some k -> aborted (toks w (controller c)) = true ->
  unload c w = emit (ECtxCleanup k) w.
Proof.
  intros c w k Hk Ha; unfold unload; rewrite Hk; unfold abort; simpl; now rewrite Ha.
Qed.

(** Claim C10: [unload()] does not clear the stored cleanup: after a first
    [unload()], each further [unload()] (with no [load()] in between)
    invokes the same cleanup once more and fires nothing, since the signal
    has already fired. *)
Theorem unload_repeats_cleanup : forall c w k n,
  ctx_cb c = Some k ->
  trace (Nat.iter (S n) (unload c) w) = trace (unload c w) ++ repeat (ECtxCleanup k) n.
Proof.
  intros c w k n Hk.
  assert (H : trace (Nat.iter (S n) (unload c) w) = trace (unload c w) ++ repeat (ECtxCleanup k) n /\
              aborted (toks (Nat.iter (S n) (unload c) w) (controller c)) = true).
  { induction n as [|n [IH1 IH2]].
    - simpl; rewrite app_nil_r; split; [reflexivity|apply unload_trace].
    - change (Nat.iter (S (S n)) (unload c) w) with (unload c (Nat.iter (S n) (unload c) w)).
      rewrite (unload_again c _ k Hk IH2); cbn [trace toks emit].
      rewrite IH1, <- app_assoc, repeat_snoc; split; [reflexivity|exact IH2]. }
  apply H.
Qed.

(** * C8: a first run that throws *)

Lemma subscribe_stack : forall s fn o w, stack (subscribe s fn o w) = stack w.
Proof. intros; unfold subscribe, add_listener; destruct (existsb _ _), o; reflexivity. Qed.

Lemma get_stack : forall s w, stack (fst (get s w)) = stack w.
Proof. intros; unfold get; destruct (current w); simpl; auto using subscribe_stack. Qed.

Lemma exec_instr_stack : forall P i w, stack (fst (exec_instr P i w)) = stack w.
Proof.
  intros P i; induction i as [s|s a|c v j IH|]; intros w; cbn [exec_instr]; auto.
  - apply get_stack.
  - apply (sset_frame P s a w).
  - destruct (get c w) as [w1 x] eqn:E; cbn beta iota.
    assert (Ew : stack w1 = stack w)
      by (change w1 with (fst (w1, x)); rewrite <- E; apply get_stack).
    destruct (strict_eqb x v); simpl; rewrite ?IH; auto.
Qed.








Lemma last_opt_snoc : forall A (l : list A) x, last_opt (l ++ [x]) = Some x.
Proof.
  intros A l x; induction l as [|y [|z l] IH]; simpl in *; auto.
Qed.

Lemma get_subscribes_current : forall s w e,
  current w = Some e -> In (e_fn e) (subs_of s (fst (get s w))).
Proof.
  intros s w e H; unfold get; rewrite H; simpl.
  unfold subscribe.
  destruct (existsb (Nat.eqb (e_fn e)) (subscribers (sigs w s))) eqn:E.
  - apply existsb_exists in E as (x & Hx & Hxe); apply Nat.eqb_eq in Hxe; subst.
    destruct (e_opt e); exact Hx.
  - destruct (e_opt e); unfold subs_of; simpl; rewrite upd_same; simpl;
      apply in_or_app; right; now left.
Qed.



(** * Witnesses *)

Lemma net_zero_batch_runs_nothing_witness :
  executions (one_sub (VNum 0)) = [] /\
  strict_eqb (value_of 0 (fold_left (fun acc a => sset one_prog 0 a acc)
                            [VNum 1; VNum 2; VNum 0] (one_sub (VNum 0))))
             (value_of 0 (one_sub (VNum 0))) = true /\
  runs (trace (drain one_prog 10 (fold_left (fun acc a => sset one_prog 0 a acc)
                                   [VNum 1; VNum 2; VNum 0] (one_sub (VNum 0)))))
  = runs (trace (one_sub (VNum 0))).
Proof.
  split; [reflexivity|]; split; [vm_compute; reflexivity|].
  exact (net_zero_batch_runs_nothing one_prog 10 0 [VNum 1; VNum 2; VNum 0] (one_sub (VNum 0))
           eq_refl eq_refl).
Defined.

Lemma runs_follow_last_queue_order_witness :
  let calls := [(1, 0, VNum 0, VNum 1); (2, 0, VNum 0, VNum 1); (1, 0, VNum 1, VNum 2)] in
  let w := init_world (fun _ => VNum 0) in
  executions w = [] /\
  quiet_pending one_prog (fold_left queue_call calls w) /\
  length (executions (fold_left queue_call calls w)) < 10 /\
  (m_keys (executions (fold_left queue_call calls w)) = by_last_queue (map call_cb calls) /\
   exists w'', flush one_prog 10 (fold_left queue_call calls w) = (w'', Normal) /\
     runs (trace w'') = runs (trace (fold_left queue_call calls w)) ++
       filter (pending_changed (executions (fold_left queue_call calls w)))
              (by_last_queue (map call_cb calls))).
Proof.
  intros calls w.
  assert (Hq : quiet_pending one_prog (fold_left queue_call calls w)).
  { intros g d Hin; vm_compute in Hin.
    repeat (destruct Hin as [H|Hin];
      [first [discriminate H | injection H as <- <-;
        split; [reflexivity|split; intros c Hc; vm_compute in Hc; discriminate]]|]).
    contradiction. }
  split; [reflexivity|]; split; [exact Hq|]; split; [vm_compute; lia|].
  exact (runs_follow_last_queue_order one_prog 10 w calls eq_refl Hq ltac:(vm_compute; lia)).
Defined.


Lemma cancel_stops_future_keeps_pending_witness :
  aborted (toks cancel_world 0) = false /\
  In (LUnsub 0 7) (listeners (toks cancel_world 0)) /\
  (let w1 := abort 0 cancel_world in
   let w2 := fold_left (fun acc sa => sset one_prog (fst sa) (snd sa) acc) [(0, VNum 2)] w1 in
   ~ In 7 (subs_of 0 w1) /\ ~ In 7 (subs_of 0 w2) /\
   (exists tr, trace w2 = trace w1 ++ tr /\ ~ In (EQueue 7 0) tr) /\
   executions w1 = executions cancel_world /\ mtasks w1 = mtasks cancel_world /\
   (quiet_pending one_prog cancel_world -> length (executions cancel_world) < 10 ->
    forall d, In (Some (7, d)) (executions cancel_world) -> existsb dep_changed d = true ->
    In 7 (runs (trace (fst (flush one_prog 10 w1)))))).
Proof.
  split; [reflexivity|]; split; [vm_compute; tauto|].
  apply (cancel_stops_future_keeps_pending one_prog 10 cancel_world 0 7 0 [(0, VNum 2)]).
  - reflexivity.
  - vm_compute; tauto.
Defined.

Lemma unload_repeats_cleanup_witness :
  ctx_cb loaded_ctx = Some 3 /\
  trace (Nat.iter 3 (unload loaded_ctx) (init_world (fun _ => VNum 0))) =
  trace (unload loaded_ctx (init_world (fun _ => VNum 0))) ++ repeat (ECtxCleanup 3) 2.
Proof.
  split; [reflexivity|].
  apply (unload_repeats_cleanup loaded_ctx (init_world (fun _ => VNum 0)) 3 2); reflexivity.
Defined.


(** * Further properties of the code *)

(** ** Subscriber sets *)

Lemma subscribe_sigs : forall s fn o w,
  sigs (subscribe s fn o w) =
  if existsb (Nat.eqb fn) (subscribers (sigs w s)) then sigs w
  else upd (sigs w) s {| value := value (sigs w s);
                         subscribers := subscribers (sigs w s) ++ [fn] |}.
Proof.
  intros; unfold subscribe.
  destruct (existsb _ _), o; reflexivity.
Qed.

Lemma subscribe_frame_sched : forall s fn o w,
  executions (subscribe s fn o w) = executions w /\ mtasks (subscribe s fn o w) = mtasks w /\
  trace (subscribe s fn o w) = trace w.
Proof. intros; unfold subscribe, add_listener; destruct (existsb _ _), o; repeat split. Qed.

Lemma subscribe_value : forall s fn o w s', value_of s' (subscribe s fn o w) = value_of s' w.
Proof.
  intros; unfold value_of; rewrite subscribe_sigs.
  destruct (existsb _ _); auto; unfold upd.
  destruct (Nat.eqb_spec s' s); subst; reflexivity.
Qed.

Lemma subscribe_subs_other : forall s fn o w s', s' <> s ->
  subs_of s' (subscribe s fn o w) = subs_of s' w.
Proof.
  intros; unfold subs_of; rewrite subscribe_sigs.
  destruct (existsb _ _); auto; rewrite upd_other; auto.
Qed.

Lemma subscribe_subs_same : forall s fn o w,
  subs_of s (subscribe s fn o w) =
  if existsb (Nat.eqb fn) (subs_of s w) then subs_of s w else subs_of s w ++ [fn].
Proof.
  intros; unfold subs_of; rewrite subscribe_sigs.
  destruct (existsb _ _); auto; rewrite upd_same; reflexivity.
Qed.

Lemma subscribe_mono : forall s fn o w s' x,
  In x (subs_of s' w) -> In x (subs_of s' (subscribe s fn o w)).
Proof.
  intros s fn o w s' x H; destruct (Nat.eq_dec s' s) as [->|Hne].
  - rewrite subscribe_subs_same; destruct (existsb _ _); auto.
    apply in_or_app; now left.
  - rewrite subscribe_subs_other; auto.
Qed.

Lemma subscribe_in : forall s fn o w, In fn (subs_of s (subscribe s fn o w)).
Proof.
  intros; rewrite subscribe_subs_same.
  destruct (existsb (Nat.eqb fn) _) eqn:E.
  - apply existsb_exists in E as (x & Hx & Hxe); apply Nat.eqb_eq in Hxe; now subst.
  - apply in_or_app; right; now left.
Qed.

Lemma NoDup_snoc : forall A (l : list A) x, NoDup l -> ~ In x l -> NoDup (l ++ [x]).
Proof.
  intros A l x; induction l as [|y l IH]; intros H Hx; simpl.
  - constructor; [intros []|constructor].
  - inversion H; subst; constructor.
    + intro Hy; apply in_app_or in Hy as [Hy|[Hy|[]]]; [contradiction|].
      subst; apply Hx; now left.
    + apply IH; auto; intro; apply Hx; now right.
Qed.

(** [subscribers] is a [Set]: [subscribe(fn)] keeps the subscriber list of
    its state free of duplicates, appends [fn] at the end when it is new
    and leaves the list as it is when [fn] is already there (so the first
    subscription fixes the order), subscribing [fn] a second time changes
    no list, and no other state's subscribers nor any state's value
    change. *)
Theorem subscribe_set_semantics : forall s fn o o' w,
  NoDup (subs_of s w) ->
  let w' := subscribe s fn o w in
  NoDup (subs_of s w') /\
  subs_of s w' =
    (if existsb (Nat.eqb fn) (subs_of s w) then subs_of s w else subs_of s w ++ [fn]) /\
  (forall s', subs_of s' (subscribe s fn o' w') = subs_of s' w') /\
  (forall s', s' <> s -> subs_of s' w' = subs_of s' w) /\
  (forall s', value_of s' w' = value_of s' w).
Proof.
  intros s fn o o' w Hnd w'; subst w'.
  split; [|split; [apply subscribe_subs_same|split; [|split]]].
  - rewrite subscribe_subs_same.
    destruct (existsb (Nat.eqb fn) _) eqn:E; auto.
    apply NoDup_snoc; auto; intro Hin.
    assert (existsb (Nat.eqb fn) (subs_of s w) = true)
      by (apply existsb_exists; exists fn; split; auto; apply Nat.eqb_refl).
    congruence.
  - intros s'; destruct (Nat.eq_dec s' s) as [->|Hne].
    + rewrite (subscribe_subs_same s fn o').
      assert (E : existsb (Nat.eqb fn) (subs_of s (subscribe s fn o w)) = true)
        by (apply existsb_exists; exists fn; split; [apply subscribe_in|apply Nat.eqb_refl]).
      now rewrite E.
    + now rewrite subscribe_subs_other.
  - intros; now apply subscribe_subs_other.
  - intros; apply subscribe_value.
Qed.

Lemma filter_not_in : forall l fn,
  ~ In fn l -> filter (fun x => negb (Nat.eqb x fn)) l = l.
Proof.
  induction l as [|y l IH]; intros fn H; simpl; auto.
  destruct (Nat.eqb_spec y fn); [subst; exfalso; apply H; now left|].
  simpl; rewrite IH; auto; intro; apply H; now right.
Qed.

Lemma run_listener_subs : forall s' fn w s,
  subs_of s (run_listener (LUnsub s' fn) w) =
  if Nat.eqb s s' then filter (fun x => negb (Nat.eqb x fn)) (subs_of s' w) else subs_of s w.
Proof.
  intros; unfold subs_of, run_listener; simpl; unfold upd.
  destruct (Nat.eqb s s'); reflexivity.
Qed.

Lemma run_listener_value : forall l w s, value_of s (run_listener l w) = value_of s w.
Proof.
  intros [s' fn] w s; unfold value_of, run_listener; simpl; unfold upd.
  destruct (Nat.eqb_spec s s'); subst; reflexivity.
Qed.

(** The function returned by [subscribe] deletes [fn] from the subscribers
    of its state and nothing else: the other subscribers keep their order,
    other states and all values are untouched, and subscribing a callback
    that was not subscribed and then calling the returned function gives
    back the original subscriber list. *)
Theorem unsubscribe_round_trip : forall s fn w,
  subs_of s (unsubscribe s fn w) = filter (fun x => negb (Nat.eqb x fn)) (subs_of s w) /\
  (forall s', s' <> s -> subs_of s' (unsubscribe s fn w) = subs_of s' w) /\
  (forall s', value_of s' (unsubscribe s fn w) = value_of s' w) /\
  (~ In fn (subs_of s w) -> subs_of s (unsubscribe s fn (subscribe s fn None w)) = subs_of s w).
Proof.
  intros s fn w; unfold unsubscribe.
  split; [rewrite run_listener_subs, Nat.eqb_refl; reflexivity|].
  split; [intros s' Hne; rewrite run_listener_subs;
          destruct (Nat.eqb_spec s' s); [contradiction|reflexivity]|].
  split; [intros; apply run_listener_value|].
  intros Hn; rewrite run_listener_subs, Nat.eqb_refl, subscribe_subs_same.
  destruct (existsb (Nat.eqb fn) (subs_of s w)) eqn:E.
  - apply existsb_exists in E as (x & Hx & Hxe); apply Nat.eqb_eq in Hxe; subst; contradiction.
  - rewrite filter_app; simpl; rewrite Nat.eqb_refl, app_nil_r.
    now apply filter_not_in.
Qed.

(** ** Reads *)

(** [get()] returns the stored value and changes no value, no pending
    record, no armed microtask, no trace, no stored cleanup and no tracker
    stack, and no other state's subscribers. Outside a tracked run it
    changes nothing at all. Inside one it appends the running callback to
    the subscribers of the state read unless it is already there, and, when
    the run carries an abort signal, appends to that signal's listeners one
    that unsubscribes the callback (whether or not it was already
    subscribed); no other signal changes. *)
Theorem get_returns_value_and_tracks : forall s w,
  let (w', v) := get s w in
  v = value_of s w /\
  (forall s', value_of s' w' = value_of s' w) /\
  executions w' = executions w /\ mtasks w' = mtasks w /\ trace w' = trace w /\
  cleanups w' = cleanups w /\ stack w' = stack w /\ next_tok w' = next_tok w /\
  (forall s', s' <> s -> subs_of s' w' = subs_of s' w) /\
  match current w with
  | None => w' = w
  | Some e =>
      subs_of s w' = (if existsb (Nat.eqb (e_fn e)) (subs_of s w) then subs_of s w
                      else subs_of s w ++ [e_fn e]) /\
      toks w' = match e_opt e with
                | None => toks w
                | Some t => upd (toks w) t {| aborted := aborted (toks w t);
                             listeners := listeners (toks w t) ++ [LUnsub s (e_fn e)] |}
                end
  end.
Proof.
  intros s w; unfold get.
  destruct (current w) as [e|] eqn:Ec; cbn beta iota.
  - destruct (subscribe_frame_sched s (e_fn e) (e_opt e) w) as (F1 & F2 & F3).
    split; [apply subscribe_value|].
    split; [intros; apply subscribe_value|].
    split; [exact F1|]; split; [exact F2|]; split; [exact F3|].
    split; [unfold subscribe, add_listener; destruct (existsb _ _), (e_opt e); reflexivity|].
    split; [apply subscribe_stack|].
    split; [unfold subscribe, add_listener; destruct (existsb _ _), (e_opt e); reflexivity|].
    split; [intros; now apply subscribe_subs_other|].
    split; [apply subscribe_subs_same|].
    unfold subscribe, add_listener; destruct (existsb _ _), (e_opt e); reflexivity.
  - repeat split; auto.
Qed.

(** ** Writes *)




(** ** The scheduler's pending record *)

(** [queue(fn, ...)] moves [fn] to the end of the iteration order (adding
    it if it was not pending), keeps the relative order of the other
    callbacks, never creates a second entry for a callback, and leaves
    the dependencies of every other callback as they were. *)
Theorem queue_moves_to_end : forall fn s o n w,
  NoDup (m_keys (executions w)) ->
  let m := executions (queue fn s o n w) in
  m_keys m = filter (fun x => negb (Nat.eqb fn x)) (m_keys (executions w)) ++ [fn] /\
  NoDup (m_keys m) /\
  (forall g, g <> fn -> m_get g m = m_get g (executions w)).
Proof.
  intros fn s o n w Hnd m; subst m.
  split; [apply queue_keys|]; split; [now apply queue_nodup|].
  intros; now apply queue_get_other.
Qed.

Lemma d_get_set_same : forall s x d, d_get s (d_set s x d) = Some x.
Proof.
  induction d as [|[s' y] d IH]; simpl; [now rewrite Nat.eqb_refl|].
  destruct (Nat.eqb_spec s s'); simpl.
  - subst; now rewrite Nat.eqb_refl.
  - apply Nat.eqb_neq in n; now rewrite n.
Qed.

Lemma d_get_set_other : forall s s' x d, s' <> s -> d_get s' (d_set s x d) = d_get s' d.
Proof.
  intros s s' x d Hne; induction d as [|[s1 y] d IH]; simpl.
  - apply Nat.eqb_neq in Hne; now rewrite Hne.
  - destruct (Nat.eqb_spec s s1); simpl.
    + subst; apply Nat.eqb_neq in Hne; now rewrite Hne.
    + now rewrite IH.
Qed.

(** [queue(fn, s, snapshot, update)] on the pending record: the entry of
    [fn] for [s] afterwards holds the given update, and keeps the
    snapshot it already had if [fn] was pending with a dependency on [s]
    (the value before the first change of the batch), or takes the given
    snapshot otherwise; the entries of [fn] for other states are kept. *)
Theorem queue_keeps_first_snapshot : forall fn s o n w,
  let m := executions (queue fn s o n w) in
  pending_dep fn s m =
    Some {| snapshot := match pending_dep fn s (executions w) with
                        | Some x => snapshot x | None => o end;
            update := n |} /\
  (forall s', s' <> s -> pending_dep fn s' m = pending_dep fn s' (executions w)).
Proof.
  intros fn s o n w m; subst m; unfold pending_dep; rewrite queue_get_same.
  destruct (m_get fn (executions w)) as [d|]; cbv zeta; cbn beta iota.
  - split.
    + destruct (d_get s d); apply d_get_set_same.
    + intros s' Hne; destruct (d_get s d); now apply d_get_set_other.
  - simpl; rewrite Nat.eqb_refl; split; [reflexivity|].
    intros s' Hne; apply Nat.eqb_neq in Hne; now rewrite Hne.
Qed.

Lemma m_size_keys : forall m, m_size m = length (m_keys m).
Proof.
  unfold m_size; induction m as [|[[k d]|] m IH]; simpl; auto.
Qed.

Lemma queue_mtasks : forall fn s o n w,
  mtasks (queue fn s o n w) =
  if Nat.ltb 1 (S (length (filter (fun x => negb (Nat.eqb fn x)) (m_keys (executions w)))))
  then mtasks w else S (mtasks w).
Proof.
  intros; unfold queue, m_set; rewrite m_get_delete_same.
  rewrite m_size_keys, m_keys_app, m_keys_delete, length_app; simpl.
  rewrite Nat.add_1_r.
  destruct (Nat.ltb _ _); reflexivity.
Qed.

Lemma queue_arm_cases : forall fn s o n w,
  ((forall g, In g (m_keys (executions w)) -> g = fn) ->
   mtasks (queue fn s o n w) = S (mtasks w)) /\
  ((exists g, In g (m_keys (executions w)) /\ g <> fn) ->
   mtasks (queue fn s o n w) = mtasks w).
Proof.
  intros fn s o n w; rewrite queue_mtasks; split.
  - intros H.
    replace (filter _ _) with (@nil cb); [reflexivity|].
    induction (m_keys (executions w)) as [|x l IH]; simpl; auto.
    rewrite (H x (or_introl eq_refl)), Nat.eqb_refl; simpl.
    apply IH; intros; apply H; now right.
  - intros (g & Hg & Hne).
    assert (Hin : In g (filter (fun x => negb (Nat.eqb fn x)) (m_keys (executions w)))).
    { apply filter_In; split; auto.
      destruct (Nat.eqb_spec fn g); [subst; contradiction|reflexivity]. }
    destruct (filter _ _) as [|y l]; [destruct Hin|reflexivity].
Qed.

(** [queue] arms a flush exactly when, leaving [fn] itself aside, the
    pending record is empty: with any other callback pending it arms
    nothing, whether or not a flush is actually on its way. *)
Theorem queue_arms_iff_alone : forall fn s o n w,
  ((forall g, In g (m_keys (executions w)) -> g = fn) ->
   mtasks (queue fn s o n w) = S (mtasks w)) /\
  ((exists g, In g (m_keys (executions w)) /\ g <> fn) ->
   mtasks (queue fn s o n w) = mtasks w).
Proof. exact queue_arm_cases. Qed.

(** ** Flushes *)

Lemma queue_keeps_key : forall fn s o n w g,
  In g (m_keys (executions w)) -> In g (m_keys (executions (queue fn s o n w))).
Proof.
  intros fn s o n w g H; rewrite queue_keys; apply in_or_app.
  destruct (Nat.eqb_spec fn g) as [->|Hne]; [right; now left|left].
  apply filter_In; split; auto; apply Nat.eqb_neq in Hne; now rewrite Hne.
Qed.

Lemma fold_queue_keeps_key : forall l s o n w g,
  In g (m_keys (executions w)) ->
  In g (m_keys (executions (fold_left (fun acc fn => queue fn s o n acc) l w))).
Proof.
  induction l as [|x l IH]; intros s o n w g H; simpl; auto using queue_keeps_key.
Qed.

Lemma sset_keeps_key : forall P s a w g,
  In g (m_keys (executions w)) -> In g (m_keys (executions (sset P s a w))).
Proof.
  intros P s a w g H; unfold sset; destruct (strict_eqb _ _); auto.
  now apply fold_queue_keeps_key.
Qed.

Lemma exec_instr_keeps_key : forall P i w g,
  In g (m_keys (executions w)) -> In g (m_keys (executions (fst (exec_instr P i w)))).
Proof.
  intros P i; induction i as [s|s a|c v j IH|]; intros w g H; cbn [exec_instr fst]; auto.
  - destruct (get_frame s w) as (E & _); now rewrite E.
  - now apply sset_keeps_key.
  - destruct (get c w) as [w1 x] eqn:Eg; cbn beta iota.
    assert (Ew : executions w1 = executions w).
    { change w1 with (fst (w1, x)); rewrite <- Eg; apply get_frame. }
    destruct (strict_eqb x v); simpl; [apply IH|]; now rewrite Ew.
Qed.

Lemma exec_code_keeps_key : forall P l w g,
  In g (m_keys (executions w)) -> In g (m_keys (executions (fst (exec_code P l w)))).
Proof.
  intros P l; induction l as [|i l IH]; intros w g H; simpl; auto.
  pose proof (exec_instr_keeps_key P i w g H) as H1.
  destruct (exec_instr P i w) as [w1 o]; simpl in H1.
  destruct o; simpl; auto.
Qed.

Lemma flush_loop_keeps_key : forall P fuel i w w' o g,
  flush_loop P fuel i w = (w', o) -> o <> Normal ->
  In g (m_keys (executions w)) -> In g (m_keys (executions w')).
Proof.
  intros P fuel; induction fuel as [|fuel IH]; intros i w w' o g H Ho Hg; simpl in H.
  - now injection H as <- _.
  - destruct (nth_error (executions w) i) as [[[f d]|]|]; [|eauto|injection H as _ <-; contradiction].
    destruct (existsb dep_changed d); [|eauto].
    assert (K1 : In g (m_keys (executions (fst (run_cleanup P f w))))).
    { unfold run_cleanup; destruct (cleanups w f); auto.
      apply (exec_code_keeps_key P _ (emit (ECleanup f) w)); exact Hg. }
    destruct (run_cleanup P f w) as [w1 o1]; simpl in K1.
    destruct o1; [|injection H as <- _; exact K1|injection H as <- _; exact K1].
    assert (K2 : In g (m_keys (executions (fst (call_fn P f w1)))))
      by (apply (exec_code_keeps_key P _ (emit (ERun f) w1)); exact K1).
    destruct (call_fn P f w1) as [w2 o2]; simpl in K2.
    destruct o2; [eapply IH; eauto|injection H as <- _; exact K2|injection H as <- _; exact K2].
Qed.

(** A flush in which a cleanup or a callback throws leaves before
    [executions.clear()]: every callback that was pending when it started
    is still pending after it. *)
Theorem thrown_flush_keeps_pending : forall P fuel w w' g,
  flush P fuel w = (w', Thrown) ->
  In g (m_keys (executions w)) -> In g (m_keys (executions w')).
Proof.
  intros P fuel w w' g H Hg; eapply flush_loop_keeps_key; eauto; discriminate.
Qed.

Lemma queue_two_keys : forall fn s o n w g1 g2,
  In g1 (m_keys (executions w)) -> In g2 (m_keys (executions w)) -> g1 <> g2 ->
  mtasks (queue fn s o n w) = mtasks w.
Proof.
  intros fn s o n w g1 g2 H1 H2 Hne; apply (proj2 (queue_arm_cases fn s o n w)).
  destruct (Nat.eq_dec g1 fn) as [->|Hn]; [exists g2; split; auto|exists g1; split; auto].
Qed.

Lemma fold_queue_two_keys : forall l s o n w g1 g2,
  In g1 (m_keys (executions w)) -> In g2 (m_keys (executions w)) -> g1 <> g2 ->
  mtasks (fold_left (fun acc fn => queue fn s o n acc) l w) = mtasks w.
Proof.
  induction l as [|x l IH]; intros s o n w g1 g2 H1 H2 Hne; simpl; auto.
  rewrite (IH s o n (queue x s o n w) g1 g2) by auto using queue_keeps_key.
  exact (queue_two_keys x s o n w g1 g2 H1 H2 Hne).
Qed.

Lemma sets_two_keys : forall P args w g1 g2,
  In g1 (m_keys (executions w)) -> In g2 (m_keys (executions w)) -> g1 <> g2 ->
  mtasks (fold_left (fun acc sa => sset P (fst sa) (snd sa) acc) args w) = mtasks w.
Proof.
  induction args as [|[s a] args IH]; intros w g1 g2 H1 H2 Hne; simpl; auto.
  rewrite (IH (sset P s a w) g1 g2) by auto using sset_keeps_key.
  unfold sset; destruct (strict_eqb _ _); auto.
  rewrite (fold_queue_two_keys _ _ _ _ _ g1 g2) by auto; reflexivity.
Qed.

(** A flush that throws leaves in the record every callback that was
    pending when it started. When two callbacks were pending, every later
    [set()], of any state and with any value, finds
    [executions.size > 1] at each [queue] and arms no microtask: the
    changes it records can then be flushed only by a microtask armed
    before. *)
Theorem thrown_flush_strands_sets : forall P fuel w w' g1 g2 args,
  flush P fuel w = (w', Thrown) ->
  In g1 (m_keys (executions w)) -> In g2 (m_keys (executions w)) -> g1 <> g2 ->
  mtasks (fold_left (fun acc sa => sset P (fst sa) (snd sa) acc) args w') = mtasks w'.
Proof.
  intros P fuel w w' g1 g2 args H H1 H2 Hne.
  apply (sets_two_keys P args w' g1 g2); auto;
    eapply flush_loop_keeps_key; eauto; discriminate.
Qed.

(** ** First runs ([effects.add]) *)




Lemma exec_instr_subs_mono : forall P i w s x,
  In x (subs_of s w) -> In x (subs_of s (fst (exec_instr P i w))).
Proof.
  intros P i; induction i as [c|c a|c v j IH|]; intros w s x H; cbn [exec_instr fst]; auto.
  - unfold get; destruct (current w); simpl; auto using subscribe_mono.
  - now rewrite (proj1 (sset_frame P c a w)).
  - assert (Hg : In x (subs_of s (fst (get c w))))
      by (unfold get; destruct (current w); simpl; auto using subscribe_mono).
    destruct (get c w) as [w1 y]; simpl in Hg; cbn beta iota.
    destruct (strict_eqb y v); simpl; auto.
Qed.

Lemma exec_code_subs_mono : forall P l w s x,
  In x (subs_of s w) -> In x (subs_of s (fst (exec_code P l w))).
Proof.
  intros P l; induction l as [|i l IH]; intros w s x H; simpl; auto.
  pose proof (exec_instr_subs_mono P i w s x H) as H1.
  destruct (exec_instr P i w) as [w1 o]; simpl in H1.
  destruct o; simpl; auto.
Qed.

Lemma exec_code_tracks : forall P l w e s,
  current w = Some e -> In (IGet s) l -> snd (exec_code P l w) = Normal ->
  In (e_fn e) (subs_of s (fst (exec_code P l w))).
Proof.
  intros P l; induction l as [|i l IH]; intros w e s Hc Hin Hn; [destruct Hin|].
  simpl in Hn |- *.
  pose proof (exec_instr_stack P i w) as Hst.
  destruct (exec_instr P i w) as [w1 o] eqn:Ei; simpl in Hst.
  destruct o; try discriminate.
  assert (Hc1 : current w1 = Some e) by (unfold current in *; now rewrite Hst).
  destruct Hin as [->|Hin]; [|now apply IH].
  apply exec_code_subs_mono.
  simpl in Ei; injection Ei as <-.
  now apply get_subscribes_current.
Qed.

(** An effect whose first run returns is subscribed to every state its
    body reads unconditionally ([s.get()] as a statement of its own):
    during [fn()] the effect is on top of the tracker's stack. *)
Theorem effect_subscribes_to_reads : forall P e w s,
  snd (add P e w) = Normal -> In (IGet s) (code P (e_fn e)) ->
  In (e_fn e) (subs_of s (fst (add P e w))).
Proof.
  intros P e w s Hn Hin; unfold add, call_fn in *.
  assert (Hc : current (emit (ERun (e_fn e)) (set_stack (stack w ++ [e]) w)) = Some e)
    by (unfold current; simpl; apply last_opt_snoc).
  pose proof (exec_code_tracks P _ _ e s Hc Hin) as H.
  destruct (exec_code P _ _) as [w2 o]; simpl in H.
  destruct o; try discriminate; simpl.
  now apply H.
Qed.

(** ** Abort listeners *)




(** A read inside a tracked run that carries a signal registers one more
    abort listener on that signal every time, even when the callback is
    already subscribed to the state. *)
Theorem tracked_get_adds_listener : forall s w e t,
  current w = Some e -> e_opt e = Some t ->
  listeners (toks (fst (get s w)) t) = listeners (toks w t) ++ [LUnsub s (e_fn e)].
Proof.
  intros s w e t Hc Ho; unfold get; rewrite Hc; simpl.
  unfold subscribe; rewrite Ho; unfold add_listener; simpl.
  rewrite upd_same; destruct (existsb _ _); reflexivity.
Qed.

(** When no pending callback or stored cleanup writes a state or throws,
    the flush reruns exactly the pending callbacks that have a changed
    dependency, once each and in the iteration order of the record, and
    then clears the record. *)
Theorem flush_reruns_changed_in_order : forall P fuel w,
  quiet_pending P w -> length (executions w) < fuel ->
  exists w', flush P fuel w = (w', Normal) /\ executions w' = [] /\
    runs (trace w') = runs (trace w) ++ run_list (executions w).
Proof.
  intros P fuel w Hq Hf; unfold flush.
  destruct (flush_quiet P fuel 0 w Hq) as (w' & H1 & H2 & H3); [lia|].
  exists w'; split; [exact H1|split; [exact H2|exact H3]].
Qed.

(** * Witnesses of the further properties *)


Lemma subscribe_set_semantics_witness :
  NoDup (subs_of 0 (one_sub (VNum 0))) /\
  (let w' := subscribe 0 7 None (one_sub (VNum 0)) in
   NoDup (subs_of 0 w') /\
   subs_of 0 w' =
     (if existsb (Nat.eqb 7) (subs_of 0 (one_sub (VNum 0))) then subs_of 0 (one_sub (VNum 0))
      else subs_of 0 (one_sub (VNum 0)) ++ [7]) /\
   (forall s', subs_of s' (subscribe 0 7 (Some 0) w') = subs_of s' w') /\
   (forall s', s' <> 0 -> subs_of s' w' = subs_of s' (one_sub (VNum 0))) /\
   (forall s', value_of s' w' = value_of s' (one_sub (VNum 0)))).
Proof.
  split; [vm_compute; repeat constructor; intros []|].
  apply (subscribe_set_semantics 0 7 None (Some 0) (one_sub (VNum 0))).
  vm_compute; repeat constructor; intros [].
Defined.


Lemma queue_moves_to_end_witness :
  NoDup (m_keys (executions stalled_world)) /\
  (let m := executions (queue 8 0 (VNum 0) (VNum 1) stalled_world) in
   m_keys m = filter (fun x => negb (Nat.eqb 8 x)) (m_keys (executions stalled_world)) ++ [8] /\
   NoDup (m_keys m) /\
   (forall g, g <> 8 -> m_get g m = m_get g (executions stalled_world))).
Proof.
  split; [vm_compute; repeat constructor; intros []|].
  apply queue_moves_to_end; vm_compute; repeat constructor; intros [].
Defined.

Lemma thrown_flush_keeps_pending_witness :
  flush throw_prog 10 stalled_world = (fst (flush throw_prog 10 stalled_world), Thrown) /\
  In 7 (m_keys (executions stalled_world)) /\
  In 7 (m_keys (executions (fst (flush throw_prog 10 stalled_world)))).
Proof.
  split; [vm_compute; reflexivity|]; split; [vm_compute; tauto|].
  apply (thrown_flush_keeps_pending throw_prog 10 stalled_world).
  - vm_compute; reflexivity.
  - vm_compute; tauto.
Defined.

Lemma thrown_flush_strands_sets_witness :
  flush throw_prog 10 stalled2_world = (fst (flush throw_prog 10 stalled2_world), Thrown) /\
  In 7 (m_keys (executions stalled2_world)) /\ In 8 (m_keys (executions stalled2_world)) /\
  7 <> 8 /\
  mtasks (fold_left (fun acc sa => sset throw_prog (fst sa) (snd sa) acc) [(0, VNum 5)]
            (fst (flush throw_prog 10 stalled2_world))) =
  mtasks (fst (flush throw_prog 10 stalled2_world)).
Proof.
  split; [vm_compute; reflexivity|]; split; [vm_compute; tauto|];
    split; [vm_compute; tauto|]; split; [lia|].
  apply (thrown_flush_strands_sets throw_prog 10 stalled2_world _ 7 8).
  - vm_compute; reflexivity.
  - vm_compute; tauto.
  - vm_compute; tauto.
  - lia.
Defined.

Lemma effect_subscribes_to_reads_witness :
  snd (add deps_prog {| e_fn := 1; e_opt := None |} (init_world deps_init)) = Normal /\
  In (IGet 1) (code deps_prog 1) /\
  In 1 (subs_of 1 (fst (add deps_prog {| e_fn := 1; e_opt := None |} (init_world deps_init)))).
Proof.
  split; [reflexivity|]; split; [simpl; tauto|].
  apply (effect_subscribes_to_reads deps_prog {| e_fn := 1; e_opt := None |} (init_world deps_init) 1).
  - reflexivity.
  - simpl; tauto.
Defined.


Lemma tracked_get_adds_listener_witness :
  current tracked_world = Some {| e_fn := 1; e_opt := Some 0 |} /\
  e_opt {| e_fn := 1; e_opt := Some 0 |} = Some 0 /\
  listeners (toks (fst (get 0 tracked_world)) 0) = listeners (toks tracked_world 0) ++ [LUnsub 0 1].
Proof.
  split; [reflexivity|]; split; [reflexivity|].
  apply (tracked_get_adds_listener 0 tracked_world {| e_fn := 1; e_opt := Some 0 |} 0);
    reflexivity.
Defined.

Lemma flush_reruns_changed_in_order_witness :
  quiet_pending one_prog (sset one_prog 0 (VNum 1) (one_sub (VNum 0))) /\
  length (executions (sset one_prog 0 (VNum 1) (one_sub (VNum 0)))) < 10 /\
  exists w', flush one_prog 10 (sset one_prog 0 (VNum 1) (one_sub (VNum 0))) = (w', Normal) /\
    executions w' = [] /\
    runs (trace w') = runs (trace (sset one_prog 0 (VNum 1) (one_sub (VNum 0)))) ++
                      run_list (executions (sset one_prog 0 (VNum 1) (one_sub (VNum 0)))).
Proof.
  assert (Hq : quiet_pending one_prog (sset one_prog 0 (VNum 1) (one_sub (VNum 0))))
    by (intros g d _; split; [reflexivity|split; intros; reflexivity]).
  split; [exact Hq|]; split; [vm_compute; lia|].
  apply flush_reruns_changed_in_order; [exact Hq|vm_compute; lia].
Defined.
